(** * Corpus processing and topic-model metrics: a shallow embedding

    This development embeds the core of the topic-modelling toolkit
    ([src/data_utils.py] and [src/metrics_utils.py]) and proves the
    properties stated for it.

    Conventions of the embedding.
    - A Python [str] is a [string]; a tokenised document is a [list string];
      a corpus is a list of documents.  Tokens hold no NUL character, so
      that numpy's fixed-width strings keep them as they are, and numpy's
      order on them is the order of [String.leb].
    - A Python [dict] is an association list kept in insertion order, the
      order Python guarantees for iteration.
    - Python exceptions are the [Raise] outcomes of the [result] monad.
    - Python's unbounded [int] is [nat] for counters, lengths and indexes
      (all of them start at zero and only grow) and [Z] for the
      user-supplied [min_absolute_frequency].
    - [max_relative_frequency] and the quotient [document_count / self.D]
      are exact rationals ([Q]); the logarithms of the coherence score are
      real numbers ([R]).  Rounding of binary floating point is not
      modelled; the non-finite outcomes of numpy arithmetic ([nan], [inf])
      are, as the [NonFinite] value of [npfloat]. *)

From Stdlib Require Import String Ascii Bool Arith ZArith QArith Lia List.
From Stdlib Require Import Permutation Sorting.Mergesort Orders.
From Stdlib Require Import Reals Qreals Lra.
Import ListNotations.

Local Open Scope nat_scope.
Local Open Scope list_scope.

(** ** Exceptions *)

Inductive exn : Type :=
| ZeroDivisionError
| KeyError (key : string)
| ValueError
| IndexError.

Inductive result (A : Type) : Type :=
| Ok (a : A)
| Raise (e : exn).

Arguments Ok {A} a.
Arguments Raise {A} e.

Definition bind {A B : Type} (m : result A) (k : A -> result B) : result B :=
  match m with
  | Ok a => k a
  | Raise e => Raise e
  end.

Notation "x <- m ;; k" := (bind m (fun x => k))
  (at level 61, m at next level, right associativity).

Fixpoint mapM {A B : Type} (f : A -> result B) (l : list A) : result (list B) :=
  match l with
  | [] => Ok []
  | a :: l' => b <- f a ;; bs <- mapM f l' ;; Ok (b :: bs)
  end.

Fixpoint foldM {A S : Type} (f : S -> A -> result S) (l : list A) (s : S)
  : result S :=
  match l with
  | [] => Ok s
  | a :: l' => s' <- f s a ;; foldM f l' s'
  end.

(** ** Insertion-ordered dictionaries with string keys *)

Module Dict.

Definition t (V : Type) : Type := list (string * V).

Definition empty {V : Type} : t V := [].

Fixpoint lookup {V : Type} (key : string) (d : t V) : option V :=
  match d with
  | [] => None
  | (k, v) :: d' => if String.eqb k key then Some v else lookup key d'
  end.

(** [key in d] *)
Definition mem {V : Type} (key : string) (d : t V) : bool :=
  match lookup key d with
  | Some _ => true
  | None => false
  end.

(** [d[key]] *)
Definition get {V : Type} (key : string) (d : t V) : result V :=
  match lookup key d with
  | Some v => Ok v
  | None => Raise (KeyError key)
  end.

(** [d[key] = v]: an existing key keeps its position, a new key goes last. *)
Fixpoint set {V : Type} (key : string) (v : V) (d : t V) : t V :=
  match d with
  | [] => [(key, v)]
  | (k, v') :: d' =>
      if String.eqb k key then (k, v) :: d' else (k, v') :: set key v d'
  end.

Fixpoint remove {V : Type} (key : string) (d : t V) : t V :=
  match d with
  | [] => []
  | (k, v) :: d' =>
      if String.eqb k key then d' else (k, v) :: remove key d'
  end.

(** [d.pop(key)], keeping the dictionary that is left. *)
Definition pop {V : Type} (key : string) (d : t V) : result (t V) :=
  if mem key d then Ok (remove key d) else Raise (KeyError key).

(** [d.keys()] *)
Definition keys {V : Type} (d : t V) : list string := map fst d.

End Dict.

(** ** numpy helpers *)

Module StringOrder <: TotalLeBool.
Definition t := string.
Definition leb (x y : string) : bool := String.leb x y.
Theorem leb_total : forall x y, leb x y = true \/ leb y x = true.
Proof. intros x y. apply String.leb_total. Qed.
End StringOrder.

Module StringSort := Sort StringOrder.

Definition string_mem (w : string) (l : list string) : bool :=
  existsb (String.eqb w) l.

(** [np.unique(doc)]: the distinct elements, in ascending order. *)
Definition np_unique (doc : list string) : list string :=
  StringSort.sort (nodup string_dec doc).

(** [np.unique(doc, return_counts=True)]: the distinct elements in
    ascending order, and for each the number of times it occurs. *)
Definition np_unique_counts (doc : list string) : list string * list nat :=
  let words := np_unique doc in
  (words, map (count_occ string_dec doc) words).

(** [np.repeat(ix, n)] *)
Definition np_repeat (ix n : nat) : list nat := repeat ix n.

(** ** scipy sparse matrix in coordinate form *)

Record csr : Type := mk_csr {
  csr_data : list nat;
  csr_row : list nat;
  csr_col : list nat;
  csr_shape : nat * nat
}.

(** [csr_matrix((data, (row, col)), shape=shape)]: the three sequences have
    one length and every coordinate lies inside the shape, or the
    constructor raises [ValueError]. *)
Definition csr_matrix (data row col : list nat) (shape : nat * nat)
  : result csr :=
  if (length row =? length data) && (length col =? length data)
     && forallb (fun r => r <? fst shape) row
     && forallb (fun c => c <? snd shape) col
  then Ok (mk_csr data row col shape)
  else Raise ValueError.

Fixpoint coo_sum (data row col : list nat) (r c : nat) : nat :=
  match data, row, col with
  | v :: data', i :: row', j :: col' =>
      (if (i =? r) && (j =? c) then v else 0) + coo_sum data' row' col' r c
  | _, _, _ => 0
  end.

(** The entry at [(r, c)]: entries given for one coordinate add up. *)
Definition csr_entry (m : csr) (r c : nat) : nat :=
  coo_sum (csr_data m) (csr_row m) (csr_col m) r c.

Definition csr_row_sum (m : csr) (r : nat) : nat :=
  fold_right Nat.add 0 (map (csr_entry m r) (seq 0 (snd (csr_shape m)))).

(** ** [CorpusProcessor] *)

Record CorpusProcessor : Type := mk_CorpusProcessor {
  max_relative_frequency : Q;
  min_absolute_frequency : Z;
  stop_words : list string;
  D : nat;
  corpus : list (list string);
  words_in_corpus : Dict.t nat;
  excluded_words : Dict.t nat;
  words_in_vocab : list string;
  vocab : list (nat * string);
  W : nat;
  documents : list (list string);
  vectorised_documents : csr
}.

Definition empty_csr : csr := mk_csr [] [] [] (0, 0).

(** [CorpusProcessor.__init__].  The default of an argument is taken when
    it is [None]; [stop_words_file] is the content of
    [data/stop_words_en.txt] split at newlines, read when no (or an empty)
    stop-word list is given. *)
Definition init (max_rel : option Q) (min_abs : option Z)
    (stop : option (list string)) (stop_words_file : list string)
  : CorpusProcessor :=
  let max_rel := match max_rel with Some q => q | None => 0%Q end in
  let min_abs := match min_abs with Some z => z | None => 0%Z end in
  let stop :=
    match stop with
    | Some (w :: ws) => w :: ws
    | _ => stop_words_file
    end in
  mk_CorpusProcessor max_rel min_abs stop 0 [] [] [] [] [] 0 [] empty_csr.

Definition set_D (self : CorpusProcessor) (d : nat) : CorpusProcessor :=
  mk_CorpusProcessor (max_relative_frequency self) (min_absolute_frequency self)
    (stop_words self) d (corpus self) (words_in_corpus self)
    (excluded_words self) (words_in_vocab self) (vocab self) (W self)
    (documents self) (vectorised_documents self).

Definition set_corpus (self : CorpusProcessor) (c : list (list string))
  : CorpusProcessor :=
  mk_CorpusProcessor (max_relative_frequency self) (min_absolute_frequency self)
    (stop_words self) (D self) c (words_in_corpus self)
    (excluded_words self) (words_in_vocab self) (vocab self) (W self)
    (documents self) (vectorised_documents self).

Definition set_words_in_corpus (self : CorpusProcessor) (d : Dict.t nat)
  : CorpusProcessor :=
  mk_CorpusProcessor (max_relative_frequency self) (min_absolute_frequency self)
    (stop_words self) (D self) (corpus self) d
    (excluded_words self) (words_in_vocab self) (vocab self) (W self)
    (documents self) (vectorised_documents self).

Definition set_excluded_words (self : CorpusProcessor) (d : Dict.t nat)
  : CorpusProcessor :=
  mk_CorpusProcessor (max_relative_frequency self) (min_absolute_frequency self)
    (stop_words self) (D self) (corpus self) (words_in_corpus self)
    d (words_in_vocab self) (vocab self) (W self)
    (documents self) (vectorised_documents self).

Definition set_vocab (self : CorpusProcessor) (ws : list string)
    (v : list (nat * string)) (w : nat) : CorpusProcessor :=
  mk_CorpusProcessor (max_relative_frequency self) (min_absolute_frequency self)
    (stop_words self) (D self) (corpus self) (words_in_corpus self)
    (excluded_words self) ws v w
    (documents self) (vectorised_documents self).

Definition set_documents (self : CorpusProcessor) (docs : list (list string))
  : CorpusProcessor :=
  mk_CorpusProcessor (max_relative_frequency self) (min_absolute_frequency self)
    (stop_words self) (D self) (corpus self) (words_in_corpus self)
    (excluded_words self) (words_in_vocab self) (vocab self) (W self)
    docs (vectorised_documents self).

Definition set_vectorised_documents (self : CorpusProcessor) (m : csr)
  : CorpusProcessor :=
  mk_CorpusProcessor (max_relative_frequency self) (min_absolute_frequency self)
    (stop_words self) (D self) (corpus self) (words_in_corpus self)
    (excluded_words self) (words_in_vocab self) (vocab self) (W self)
    (documents self) m.

(** One pass of the inner loop of [_words_in_corpus]. *)
Definition count_word (d : Dict.t nat) (word : string) : result (Dict.t nat) :=
  if Dict.mem word d
  then n <- Dict.get word d ;; Ok (Dict.set word (n + 1) d)
  else Ok (Dict.set word 1 d).

(** One pass of the outer loop of [_words_in_corpus]. *)
Definition count_doc (d : Dict.t nat) (doc : list string)
  : result (Dict.t nat) :=
  foldM count_word (np_unique doc) d.

Definition _words_in_corpus (self : CorpusProcessor) : result CorpusProcessor :=
  d <- foldM count_doc (corpus self) Dict.empty ;;
  Ok (set_words_in_corpus self d).

Definition _is_out_of_frequency (self : CorpusProcessor) (document_count : nat)
  : result bool :=
  if D self =? 0 then Raise ZeroDivisionError
  else
    let high_frequency :=
      Qle_bool (max_relative_frequency self)
        (inject_Z (Z.of_nat document_count) / inject_Z (Z.of_nat (D self))) in
    let low_frequency :=
      (Z.of_nat document_count <=? min_absolute_frequency self)%Z in
    Ok (high_frequency || low_frequency).

Definition _is_stop_word (self : CorpusProcessor) (word : string) : bool :=
  string_mem word (stop_words self).

Definition _is_out_of_vocab (self : CorpusProcessor) (word : string)
    (document_count : nat) : result bool :=
  if _is_stop_word self word then Ok true
  else _is_out_of_frequency self document_count.

(** One pass of the first loop of [_filter_words]. *)
Definition exclude_step (self : CorpusProcessor) (excluded : Dict.t nat)
    (key : string) : result (Dict.t nat) :=
  n <- Dict.get key (words_in_corpus self) ;;
  out <- _is_out_of_vocab self key n ;;
  if out
  then n' <- Dict.get key (words_in_corpus self) ;; Ok (Dict.set key n' excluded)
  else Ok excluded.

Definition _filter_words (self : CorpusProcessor) : result CorpusProcessor :=
  excluded <- foldM (exclude_step self) (Dict.keys (words_in_corpus self))
                Dict.empty ;;
  let self := set_excluded_words self excluded in
  d <- foldM (fun d key => Dict.pop key d) (Dict.keys excluded)
         (words_in_corpus self) ;;
  Ok (set_words_in_corpus self d).

Definition enumerate {A : Type} (l : list A) : list (nat * A) :=
  combine (seq 0 (length l)) l.

Definition _create_vocab (self : CorpusProcessor) : CorpusProcessor :=
  let ws := Dict.keys (words_in_corpus self) in
  let v := enumerate ws in
  set_vocab self ws v (length v).

Definition _refine_document (self : CorpusProcessor) (doc : list string)
  : list string :=
  filter (fun word => Dict.mem word (words_in_corpus self)) doc.

(** One pass of the loop of [_build_documents]: the documents kept so far
    and the indexes logged so far. *)
Definition build_step (self : CorpusProcessor)
    (acc : list (list string) * list nat) (item : nat * list string)
  : list (list string) * list nat :=
  let words := _refine_document self (snd item) in
  if 0 <? length words
  then (fst acc ++ [words], snd acc)
  else (fst acc, snd acc ++ [fst item]).

Definition _build_documents (self : CorpusProcessor) : CorpusProcessor :=
  let acc := fold_left (build_step self) (enumerate (corpus self)) ([], []) in
  let self := set_documents self (fst acc) in
  set_D self (length (documents self)).

(** [list.index] *)
Fixpoint list_index (word : string) (l : list string) : result nat :=
  match l with
  | [] => Raise ValueError
  | x :: l' =>
      if String.eqb x word then Ok 0
      else i <- list_index word l' ;; Ok (S i)
  end.

Definition _get_word_id (self : CorpusProcessor) (word : string) : result nat :=
  list_index word (words_in_vocab self).

(** One pass of the loop of [_vectorize] over [(row, col, data)]. *)
Definition vectorize_step (self : CorpusProcessor)
    (acc : list nat * list nat * list nat) (item : nat * list string)
  : result (list nat * list nat * list nat) :=
  let '(row, col, data) := acc in
  let '(words, counts) := np_unique_counts (snd item) in
  word_ids <- mapM (_get_word_id self) words ;;
  Ok (row ++ np_repeat (fst item) (length words), col ++ word_ids,
      data ++ counts).

Definition _vectorize (self : CorpusProcessor) : result CorpusProcessor :=
  acc <- foldM (vectorize_step self) (enumerate (documents self))
           ([], [], []) ;;
  let '(row, col, data) := acc in
  m <- csr_matrix data row col (D self, W self) ;;
  Ok (set_vectorised_documents self m).

Definition process (self : CorpusProcessor) (c : list (list string))
  : result CorpusProcessor :=
  let self := set_D self (length c) in
  let self := set_corpus self c in
  self <- _words_in_corpus self ;;
  self <- _filter_words self ;;
  let self := _create_vocab self in
  let self := _build_documents self in
  _vectorize self.

Definition get_vectorised_documents (self : CorpusProcessor) : csr :=
  vectorised_documents self.

Definition get_vocab (self : CorpusProcessor) : list (nat * string) :=
  vocab self.

Definition get_documents (self : CorpusProcessor) : list (list string) :=
  documents self.

(** ** numpy floating-point values

    A value is a real number or one of the non-finite values ([nan],
    [inf], [-inf]), which numpy produces, with a warning and without an
    exception, when it divides by zero, takes the logarithm of a
    non-positive number or averages an empty sequence. *)

Inductive npfloat : Type :=
| Finite (x : R)
| NonFinite.

Definition np_mul (a b : npfloat) : npfloat :=
  match a, b with
  | Finite x, Finite y => Finite (x * y)
  | _, _ => NonFinite
  end.

Definition np_div (a b : npfloat) : npfloat :=
  match a, b with
  | Finite x, Finite y =>
      if Req_EM_T y 0 then NonFinite else Finite (x / y)
  | _, _ => NonFinite
  end.

Definition np_neg (a : npfloat) : npfloat :=
  match a with
  | Finite x => Finite (- x)
  | NonFinite => NonFinite
  end.

Definition np_log (a : npfloat) : npfloat :=
  match a with
  | Finite x => if Rlt_dec 0 x then Finite (ln x) else NonFinite
  | NonFinite => NonFinite
  end.

Fixpoint np_sum (l : list npfloat) : npfloat :=
  match l with
  | [] => Finite 0
  | Finite x :: l' =>
      match np_sum l' with
      | Finite s => Finite (x + s)
      | NonFinite => NonFinite
      end
  | NonFinite :: _ => NonFinite
  end.

(** [np.mean]: the mean of an empty sequence is [nan]. *)
Definition np_mean (l : list npfloat) : npfloat :=
  np_div (np_sum l) (Finite (INR (length l))).

(** [np.max] of a non-empty sequence; of an empty one it raises. *)
Fixpoint np_max (l : list npfloat) : result npfloat :=
  match l with
  | [] => Raise ValueError
  | [a] => Ok a
  | a :: l' =>
      m <- np_max l' ;;
      Ok match a, m with
         | Finite x, Finite y => Finite (Rmax x y)
         | _, _ => NonFinite
         end
  end.

(** ** [Coherence] *)

Record Coherence : Type := mk_Coherence {
  counts_vector : csr;
  pw : list Q;
  pcoo : list (list Q)
}.

(** [X[X > 0] = 1] read at one position. *)
Definition binarized (X : csr) (d w : nat) : nat :=
  if 0 <? csr_entry X d w then 1 else 0.

Definition sum_nat (l : list nat) : nat := fold_right Nat.add 0 l.

(** [X.sum(axis=0)] of the binarised matrix, at column [w]. *)
Definition nw (X : csr) (w : nat) : nat :=
  sum_nat (map (fun d => binarized X d w) (seq 0 (fst (csr_shape X)))).

(** [np.transpose(X).dot(X)] of the binarised matrix, at [(i, j)]. *)
Definition coo (X : csr) (i j : nat) : nat :=
  sum_nat (map (fun d => binarized X d i * binarized X d j)
             (seq 0 (fst (csr_shape X)))).

Definition ratio (n d : nat) : Q :=
  inject_Z (Z.of_nat n) / inject_Z (Z.of_nat d).

(** [Coherence.get_marginals].  With no row ([D = 0]) the division of the
    sparse co-occurrence matrix by [D] raises [ZeroDivisionError], and the
    constructor with it. *)
Definition get_marginals (X : csr) : result Coherence :=
  let D := fst (csr_shape X) in
  let cols := seq 0 (snd (csr_shape X)) in
  let pw := map (fun w => ratio (nw X w) D) cols in
  if D =? 0 then Raise ZeroDivisionError
  else
    let pcoo := map (fun i => map (fun j => ratio (coo X i j) D) cols) cols in
    Ok (mk_Coherence X pw pcoo).

(** [Coherence.__init__] *)
Definition Coherence_init (counts_vector : csr) : result Coherence :=
  get_marginals counts_vector.

Definition index {A : Type} (l : list A) (i : nat) : result A :=
  match nth_error l i with
  | Some a => Ok a
  | None => Raise IndexError
  end.

Definition QtoR (q : Q) : npfloat := Finite (Q2R q).

Definition get_npmi (self : Coherence) (ix jx : nat) : result npfloat :=
  row <- index (pcoo self) ix ;;
  coo <- index row jx ;;
  if negb (Qle_bool coo 0) then
    pwi <- index (pw self) ix ;;
    pwj <- index (pw self) jx ;;
    let pmi := np_log (np_div (QtoR coo) (np_mul (QtoR pwi) (QtoR pwj))) in
    let npmi := np_div pmi (np_neg (np_log (QtoR coo))) in
    Ok npmi
  else Ok (Finite (-1)).

Definition get_topic_coherence (self : Coherence) (word_indexes : list nat)
  : result npfloat :=
  let n := length word_indexes in
  coherence_scores <-
    foldM (fun scores i =>
             foldM (fun scores j =>
                      ix <- index word_indexes i ;;
                      jx <- index word_indexes j ;;
                      s <- get_npmi self ix jx ;;
                      Ok (scores ++ [s]))
                   (seq (i + 1) (n - (i + 1))) scores)
          (seq 0 (n - 1)) [] ;;
  Ok (np_mean coherence_scores).

Definition model_coherence (self : Coherence)
    (list_word_indexes : list (list nat)) : result (list npfloat) :=
  mapM (get_topic_coherence self) list_word_indexes.

(** ** [Similarity] *)

Record ndarray : Type := mk_ndarray {
  nd_shape : nat * nat;
  nd_rows : list (list R)
}.

Record Similarity : Type := mk_Similarity {
  topic_word : ndarray;
  K : nat;
  sim_W : nat
}.

(** [Similarity.__init__] *)
Definition Similarity_init (topic_word : ndarray) : Similarity :=
  mk_Similarity topic_word (fst (nd_shape topic_word))
    (snd (nd_shape topic_word)).

Definition sum_R (l : list R) : R := fold_right Rplus 0%R l.

Definition dot (x y : list R) : R :=
  sum_R (map (fun p => (fst p * snd p)%R) (combine x y)).

(** A row scaled to unit length; a zero row is left as it is. *)
Definition normalize (x : list R) : list R :=
  let n := sqrt (dot x x) in
  let n := if Req_EM_T n 0 then 1%R else n in
  map (fun v => (v / n)%R) x.

(** [sklearn.metrics.pairwise.cosine_similarity(X, Y)]: both arguments
    need at least one row and one column, or it raises [ValueError]. *)
Definition cosine_similarity (X Y : ndarray) : result (list (list R)) :=
  if (fst (nd_shape X) =? 0) || (snd (nd_shape X) =? 0)
     || (fst (nd_shape Y) =? 0) || (snd (nd_shape Y) =? 0)
     || negb (snd (nd_shape X) =? snd (nd_shape Y))
  then Raise ValueError
  else
    Ok (map (fun x => map (fun y => dot (normalize x) (normalize y))
                        (nd_rows Y))
          (nd_rows X)).

Fixpoint delete_nth {A : Type} (l : list A) (n : nat) : list A :=
  match l, n with
  | [], _ => []
  | _ :: l', 0 => l'
  | a :: l', S n' => a :: delete_nth l' n'
  end.

(** [np.delete(a, ix, axis=0)] *)
Definition np_delete (a : ndarray) (ix : nat) : result ndarray :=
  if ix <? fst (nd_shape a)
  then Ok (mk_ndarray (fst (nd_shape a) - 1, snd (nd_shape a))
             (delete_nth (nd_rows a) ix))
  else Raise IndexError.

Definition get_similarity (self : Similarity) (topic_index : nat)
  : result (list (list R)) :=
  row <- (if topic_index <? fst (nd_shape (topic_word self))
          then index (nd_rows (topic_word self)) topic_index
          else Raise IndexError) ;;
  let word_distribution_i := mk_ndarray (1, sim_W self) [row] in
  word_distribution_js <- np_delete (topic_word self) topic_index ;;
  cosine_similarity word_distribution_i word_distribution_js.

Definition model_similarity (self : Similarity) (type : option string)
  : result (list npfloat) :=
  foldM (fun topic_similarity k =>
           similarity_scores <- get_similarity self k ;;
           let flat := map Finite (concat similarity_scores) in
           let similarity := np_mean flat in
           similarity <-
             (match type with
              | Some "max"%string => np_max flat
              | _ => Ok similarity
              end) ;;
           Ok (topic_similarity ++ [similarity]))
        (seq 0 (K self)) [].

(** ** [TextPreProcessor]

    A text is a sequence of characters with code points below 256; each
    [ascii] is one code point. *)

Definition code (c : ascii) : nat := nat_of_ascii c.

(** The characters [a] to [z]. *)
Definition is_lower_letter (c : ascii) : bool :=
  (97 <=? code c) && (code c <=? 122).

(** The characters that [str.isspace] and the pattern [\s] accept. *)
Definition is_space (c : ascii) : bool :=
  ((9 <=? code c) && (code c <=? 13))
  || ((28 <=? code c) && (code c <=? 32))
  || (code c =? 133) || (code c =? 160).

(** [str.lower] on one character: [A]-[Z] and the upper-case letters of
    Latin-1 move up by 32. *)
Definition char_lower (c : ascii) : ascii :=
  if ((65 <=? code c) && (code c <=? 90))
     || ((192 <=? code c) && (code c <=? 222) && negb (code c =? 215))
  then ascii_of_nat (code c + 32)
  else c.

(** [text.lower()] *)
Definition str_lower (text : list ascii) : list ascii := map char_lower text.

Fixpoint drop_spaces (text : list ascii) : list ascii :=
  match text with
  | [] => []
  | c :: text' => if is_space c then drop_spaces text' else text
  end.

(** [text.strip()] *)
Definition str_strip (text : list ascii) : list ascii :=
  rev (drop_spaces (rev (drop_spaces text))).

(** [re.sub(r"[^a-z]", " ", text)] *)
Definition sub_non_letters (text : list ascii) : list ascii :=
  map (fun c => if is_lower_letter c then c else " "%char) text.

(** [re.sub("\s\s+", " ", text)]: every maximal run of two or more
    whitespace characters becomes one blank.  [in_run] says that the
    characters read last belong to a run already replaced. *)
Fixpoint sub_space_runs (in_run : bool) (text : list ascii) : list ascii :=
  match text with
  | [] => []
  | c :: text' =>
      if is_space c then
        if in_run then sub_space_runs true text'
        else
          match text' with
          | c' :: _ =>
              if is_space c' then " "%char :: sub_space_runs true text'
              else c :: sub_space_runs false text'
          | [] => [c]
          end
      else c :: sub_space_runs false text'
  end.

(** [text.split()]: the maximal runs of characters that are no
    whitespace.  [cur] holds the run being read, last character first. *)
Fixpoint str_split (cur : list ascii) (text : list ascii)
  : list (list ascii) :=
  match text with
  | [] => match cur with [] => [] | _ => [rev cur] end
  | c :: text' =>
      if is_space c then
        match cur with
        | [] => str_split [] text'
        | _ => rev cur :: str_split [] text'
        end
      else str_split (c :: cur) text'
  end.

(** [TextPreProcessor._preprocess] on the characters of a text. *)
Definition preprocess_chars (text : list ascii) : list (list ascii) :=
  let text := str_lower text in
  let text := sub_non_letters (str_strip text) in
  let text := sub_space_runs false text in
  str_split [] text.

Definition _preprocess (text : string) : list string :=
  map string_of_list_ascii (preprocess_chars (list_ascii_of_string text)).

Record TextPreProcessor : Type := mk_TextPreProcessor {
  processed_corpus : list (list string)
}.

(** [TextPreProcessor.preprocess]: the new state and the value returned. *)
Definition preprocess (self : TextPreProcessor) (corpus : list string)
  : TextPreProcessor * list (list string) :=
  let self := mk_TextPreProcessor [] in
  let self :=
    fold_left (fun self doc =>
                 mk_TextPreProcessor (processed_corpus self ++ [_preprocess doc]))
      corpus self in
  (self, processed_corpus self).

(** ** Notions used to state the properties *)

(** The count stored for a word, zero when the word is no key. *)
Definition cnt (w : string) (d : Dict.t nat) : nat :=
  match Dict.lookup w d with
  | Some n => n
  | None => 0
  end.

(** The number of documents of the corpus in which the word occurs. *)
Definition document_frequency (w : string) (c : list (list string)) : nat :=
  length (filter (string_mem w) c).

(** The sequence of words in the order in which [_words_in_corpus] visits
    them: documents in order, the distinct words of a document in the
    order of [np.unique]. *)
Definition scan (c : list (list string)) : list string :=
  concat (map np_unique c).

(** The position of the first occurrence of a word in a sequence (the
    length of the sequence when the word does not occur). *)
Fixpoint first_pos (w : string) (l : list string) : nat :=
  match l with
  | [] => 0
  | x :: l' => if String.eqb x w then 0 else S (first_pos w l')
  end.

Definition add_key (ks : list string) (w : string) : list string :=
  if string_mem w ks then ks else ks ++ [w].

(** The distinct words of a sequence in the order of their first
    occurrence. *)
Definition first_seen (l : list string) : list string :=
  fold_left add_key l [].

(** What one pass of the inner loop of [_words_in_corpus] does to the
    table. *)
Definition count_step (d : Dict.t nat) (w : string) : Dict.t nat :=
  Dict.set w (cnt w d + 1) d.

(** The frequency table of a corpus. *)
Definition counted (c : list (list string)) : Dict.t nat :=
  fold_left count_step (scan c) Dict.empty.

(** The exclusion test of the specification, with the number of documents
    [D0] it divides by made explicit. *)
Definition excluded_at (self : CorpusProcessor) (D0 : nat)
    (word : string) (df : nat) : bool :=
  string_mem word (stop_words self)
  || (Qle_bool (max_relative_frequency self)
        (inject_Z (Z.of_nat df) / inject_Z (Z.of_nat D0))
      || (Z.of_nat df <=? min_absolute_frequency self)%Z).

(** The exclusion test on an entry of the frequency table, dividing by the
    document count the processor holds. *)
Definition excl (self : CorpusProcessor) (kv : string * nat) : bool :=
  excluded_at self (D self) (fst kv) (snd kv).

(** The frequency table after filtering, for the thresholds of [self] and
    a corpus [c]. *)
Definition kept (self : CorpusProcessor) (c : list (list string))
  : Dict.t nat :=
  filter (fun kv => negb (excluded_at self (length c) (fst kv) (snd kv)))
    (counted c).

Definition removed (self : CorpusProcessor) (c : list (list string))
  : Dict.t nat :=
  filter (fun kv => excluded_at self (length c) (fst kv) (snd kv)) (counted c).

(** The documents that keep a word of the filtered table, refined. *)
Definition kept_documents (table : Dict.t nat) (c : list (list string))
  : list (list string) :=
  filter (fun words => 0 <? length words)
    (map (filter (fun word => Dict.mem word table)) c).

(** The coordinate entries [(row, col, value)] that [_vectorize] emits for
    one enumerated document, and for a sequence of them. *)
Definition doc_triples (vocabulary : list string) (item : nat * list string)
  : list (nat * nat * nat) :=
  map (fun w => (fst item, first_pos w vocabulary,
                 count_occ string_dec (snd item) w))
    (np_unique (snd item)).

Definition triples (vocabulary : list string)
    (items : list (nat * list string)) : list (nat * nat * nat) :=
  concat (map (doc_triples vocabulary) items).

Definition tr_row (t : nat * nat * nat) : nat := fst (fst t).
Definition tr_col (t : nat * nat * nat) : nat := snd (fst t).
Definition tr_data (t : nat * nat * nat) : nat := snd t.

Definition csr_of_triples (T : list (nat * nat * nat)) (shape : nat * nat)
  : csr :=
  mk_csr (map tr_data T) (map tr_row T) (map tr_col T) shape.

(** The state [process] ends in. *)
Definition processed (self : CorpusProcessor) (c : list (list string))
  : CorpusProcessor :=
  let table := kept self c in
  let ws := Dict.keys table in
  let docs := kept_documents table c in
  mk_CorpusProcessor (max_relative_frequency self)
    (min_absolute_frequency self) (stop_words self)
    (length docs) c table (removed self c) ws (enumerate ws)
    (length (enumerate ws)) docs
    (csr_of_triples (triples ws (enumerate docs))
       (length docs, length (enumerate ws))).

(** The number of documents of the corpus that keep a word of the
    vocabulary. *)
Definition D_filtered (vocabulary : list string) (c : list (list string))
  : nat :=
  length (filter (existsb (fun w => string_mem w vocabulary)) c).

(** ** Concrete inputs *)

Open Scope string_scope.

(** A processor with thresholds [1.0] and [0] whose stop-word file is
    empty. *)
Definition processor_1_0 : CorpusProcessor :=
  init (Some 1%Q) (Some 0%Z) None [].

Definition corpus_cat_dog_bird : list (list string) :=
  [["cat"; "dog"]; ["dog"; "bird"]; ["cat"; "bird"; "dog"]].

Definition corpus_dog_cat_fish : list (list string) :=
  [["dog"; "cat"]; ["fish"]].

Close Scope string_scope.

Open Scope string_scope.

(** A processor with thresholds [1.0] and [1], and a corpus one of whose
    documents loses all its words. *)
Definition processor_1_1 : CorpusProcessor :=
  init (Some 1%Q) (Some 1%Z) None [].

Definition corpus_a_b_a : list (list string) := [["a"]; ["b"]; ["a"]].

Close Scope string_scope.

(** The marginals as real numbers: the share of the documents that contain
    a word, and the share that contain both of two words. *)
Definition pw_real (X : csr) (i : nat) : R :=
  (INR (nw X i) / INR (fst (csr_shape X)))%R.

Definition pcoo_real (X : csr) (i j : nat) : R :=
  (INR (coo X i j) / INR (fst (csr_shape X)))%R.

(** The NPMI expression in numpy arithmetic. *)
Definition npmi_formula (p p_i p_j : R) : npfloat :=
  np_div (np_log (np_div (Finite p) (np_mul (Finite p_i) (Finite p_j))))
    (np_neg (np_log (Finite p))).

Open Scope string_scope.

(** A corpus two of whose words occur in every document that is kept. *)
Definition corpus_ac_b_ac : list (list string) :=
  [["a"; "c"]; ["b"]; ["a"; "c"]].

Close Scope string_scope.

(** The entry at [(r, c)] of the matrix built from a list of coordinate
    entries. *)
Definition triples_entry (T : list (nat * nat * nat)) (r c : nat) : nat :=
  coo_sum (map tr_data T) (map tr_row T) (map tr_col T) r c.

(** The pairs [(l[i], l[j])] with [i < j], in the order in which the two
    loops of [get_topic_coherence] visit them. *)
Fixpoint pairs {A : Type} (l : list A) : list (A * A) :=
  match l with
  | [] => []
  | a :: l' => map (pair a) l' ++ pairs l'
  end.

(** A score that is a real number of [[-1, 1]]. *)
Definition in_unit_range (s : npfloat) : Prop :=
  exists v, s = Finite v /\ (-1 <= v <= 1)%R.

(** The cosine similarity of two rows, as [cosine_similarity] computes
    it. *)
Definition cosine (x y : list R) : R := dot (normalize x) (normalize y).

(** A score that is a non-negative real number. *)
Definition is_nonneg (s : npfloat) : Prop :=
  exists v, s = Finite v /\ (0 <= v)%R.

(** A topic-word matrix whose rows are as many as its shape says. *)
Definition well_formed (a : ndarray) : Prop :=
  length (nd_rows a) = fst (nd_shape a).

(** The score that one pass of the loop of [model_similarity] appends for
    topic [k]. *)
Definition topic_score (self : Similarity) (type : option string) (k : nat)
  : result npfloat :=
  similarity_scores <- get_similarity self k ;;
  let flat := map Finite (concat similarity_scores) in
  match type with
  | Some "max"%string => np_max flat
  | _ => Ok (np_mean flat)
  end.

(** A word made of the letters [a] to [z], at least one. *)
Definition is_word (w : string) : Prop :=
  w <> EmptyString
  /\ Forall (fun c => is_lower_letter c = true) (list_ascii_of_string w).

(** The tokens of a text joined by single blanks. *)
Fixpoint join (tokens : list (list ascii)) : list ascii :=
  match tokens with
  | [] => []
  | [t] => t
  | t :: tokens' => t ++ " "%char :: join tokens'
  end.

(** * Proofs *)

(** ** The [result] monad *)

Lemma foldM_app {A S : Type} (f : S -> A -> result S) (l1 l2 : list A) (s : S) :
  foldM f (l1 ++ l2) s = (s' <- foldM f l1 s ;; foldM f l2 s').
Proof.
  revert s. induction l1 as [|a l1 IH]; intros s; simpl.
  - reflexivity.
  - destruct (f s a) as [s'|e]; simpl; [apply IH | reflexivity].
Qed.

Lemma foldM_pure {A S : Type} (f : S -> A -> result S) (g : S -> A -> S)
    (l : list A) (s : S) :
  (forall s a, f s a = Ok (g s a)) ->
  foldM f l s = Ok (fold_left g l s).
Proof.
  intros Hf. revert s. induction l as [|a l IH]; intros s; simpl.
  - reflexivity.
  - rewrite Hf. simpl. apply IH.
Qed.

Lemma foldM_concat {A B S : Type} (f : S -> A -> result S) (h : B -> list A)
    (l : list B) (s : S) :
  foldM (fun s b => foldM f (h b) s) l s = foldM f (concat (map h l)) s.
Proof.
  revert s. induction l as [|b l IH]; intros s; simpl.
  - reflexivity.
  - rewrite foldM_app. destruct (foldM f (h b) s); simpl; [apply IH | reflexivity].
Qed.

Lemma mapM_pure {A B : Type} (f : A -> result B) (g : A -> B) (l : list A) :
  (forall a, In a l -> f a = Ok (g a)) ->
  mapM f l = Ok (map g l).
Proof.
  induction l as [|a l IH]; intros Hf; simpl.
  - reflexivity.
  - rewrite (Hf a) by (left; reflexivity). simpl.
    rewrite IH by (intros; apply Hf; right; assumption). reflexivity.
Qed.

(** ** Strings *)

Lemma string_mem_In (w : string) (l : list string) :
  string_mem w l = true <-> In w l.
Proof.
  unfold string_mem. rewrite existsb_exists. split.
  - intros [x [Hx He]]. apply String.eqb_eq in He. subst. assumption.
  - intros H. exists w. split; [assumption | apply String.eqb_refl].
Qed.

Lemma string_mem_false (w : string) (l : list string) :
  string_mem w l = false <-> ~ In w l.
Proof.
  rewrite <- string_mem_In. destruct (string_mem w l); split; congruence.
Qed.

(** ** Dictionaries *)

Module DictFacts.
Import Dict.

Section WithValues.
Context {V : Type}.
Implicit Types (d : t V) (k : string) (v : V).

Lemma lookup_None_keys k d : lookup k d = None <-> ~ In k (keys d).
Proof.
  induction d as [|[k' v'] d IH]; simpl.
  - tauto.
  - destruct (String.eqb_spec k' k) as [->|Hne].
    + split; [discriminate | tauto].
    + rewrite IH. tauto.
Qed.

Lemma mem_keys k d : mem k d = true <-> In k (keys d).
Proof.
  unfold mem. destruct (lookup k d) eqn:E.
  - split; [intros _ | reflexivity].
    destruct (in_dec string_dec k (keys d)) as [H|H]; [assumption|].
    apply lookup_None_keys in H. congruence.
  - apply lookup_None_keys in E. split; [discriminate | tauto].
Qed.

Lemma mem_string_mem k d : mem k d = string_mem k (keys d).
Proof.
  destruct (string_mem k (keys d)) eqn:E.
  - apply mem_keys, string_mem_In, E.
  - apply string_mem_false in E. rewrite <- mem_keys in E.
    destruct (mem k d); congruence.
Qed.

Lemma lookup_In k v d : lookup k d = Some v -> In (k, v) d.
Proof.
  induction d as [|[k' v'] d IH]; simpl; [discriminate|].
  destruct (String.eqb_spec k' k) as [->|Hne].
  - intros [= ->]. left; reflexivity.
  - intros H. right. apply IH, H.
Qed.

Lemma In_lookup k v d : NoDup (keys d) -> In (k, v) d -> lookup k d = Some v.
Proof.
  induction d as [|[k' v'] d IH]; simpl; [tauto|].
  intros Hnd [[= -> ->]|Hin].
  - rewrite String.eqb_refl. reflexivity.
  - inversion Hnd as [|? ? Hk' Hnd']; subst.
    destruct (String.eqb_spec k' k) as [->|Hne].
    + exfalso. apply Hk'. change k with (fst (k, v)). apply in_map, Hin.
    + apply IH; assumption.
Qed.

Lemma lookup_set_same k v d : lookup k (set k v d) = Some v.
Proof.
  induction d as [|[k' v'] d IH]; simpl.
  - rewrite String.eqb_refl. reflexivity.
  - destruct (String.eqb_spec k' k) as [->|Hne]; simpl.
    + rewrite String.eqb_refl. reflexivity.
    + apply String.eqb_neq in Hne. rewrite Hne. apply IH.
Qed.

Lemma lookup_set_other k k' v d :
  k <> k' -> lookup k' (set k v d) = lookup k' d.
Proof.
  intros Hne. induction d as [|[k0 v0] d IH]; simpl.
  - apply String.eqb_neq in Hne. rewrite Hne. reflexivity.
  - destruct (String.eqb_spec k0 k) as [->|Hne0]; simpl.
    + apply String.eqb_neq in Hne. rewrite Hne. reflexivity.
    + rewrite IH. reflexivity.
Qed.

Lemma keys_set k v d :
  keys (set k v d) = if mem k d then keys d else keys d ++ [k].
Proof.
  unfold mem. induction d as [|[k' v'] d IH]; simpl.
  - reflexivity.
  - destruct (String.eqb_spec k' k) as [->|Hne]; simpl.
    + reflexivity.
    + rewrite IH. destruct (lookup k d); reflexivity.
Qed.

Lemma set_fresh k v d : mem k d = false -> set k v d = d ++ [(k, v)].
Proof.
  unfold mem. induction d as [|[k' v'] d IH]; simpl.
  - reflexivity.
  - destruct (String.eqb_spec k' k) as [->|Hne]; [discriminate|].
    intros H. rewrite IH by assumption. reflexivity.
Qed.

Lemma remove_filter k d :
  NoDup (keys d) ->
  remove k d = filter (fun kv => negb (String.eqb (fst kv) k)) d.
Proof.
  induction d as [|[k' v'] d IH]; simpl; [reflexivity|].
  intros Hnd. inversion Hnd as [|? ? Hk' Hnd']; subst.
  destruct (String.eqb_spec k' k) as [->|Hne]; simpl.
  - symmetry. apply forallb_filter_id. apply forallb_forall.
    intros [k0 v0] Hin. simpl. apply negb_true_iff, String.eqb_neq.
    intros ->. apply Hk'. change k with (fst (k, v0)). apply in_map, Hin.
  - rewrite IH by assumption. reflexivity.
Qed.

Lemma keys_filter_NoDup (f : string * V -> bool) d :
  NoDup (keys d) -> NoDup (keys (filter f d)).
Proof.
  induction d as [|[k' v'] d IH]; simpl; [constructor|].
  intros Hnd. inversion Hnd as [|? ? Hk' Hnd']; subst.
  destruct (f (k', v')); simpl; [|apply IH, Hnd'].
  constructor; [|apply IH, Hnd'].
  intros Hin. apply Hk'. unfold keys in *.
  apply in_map_iff in Hin as [[k0 v0] [E Hin]]. simpl in E. subst.
  apply filter_In in Hin as [Hin _].
  change k' with (fst (k', v0)). apply in_map, Hin.
Qed.

End WithValues.
End DictFacts.

(** ** [np.unique] *)

Lemma np_unique_sorted (doc : list string) :
  Sorted.Sorted (fun x y => is_true (String.leb x y)) (np_unique doc).
Proof. apply StringSort.Sorted_sort. Qed.

Lemma np_unique_Permutation (doc : list string) :
  Permutation (nodup string_dec doc) (np_unique doc).
Proof. apply StringSort.Permuted_sort. Qed.

Lemma np_unique_In (w : string) (doc : list string) :
  In w (np_unique doc) <-> In w doc.
Proof.
  split; intros H.
  - apply (nodup_In string_dec).
    eapply Permutation_in; [symmetry; apply np_unique_Permutation | exact H].
  - eapply Permutation_in; [apply np_unique_Permutation |].
    apply nodup_In, H.
Qed.

Lemma np_unique_NoDup (doc : list string) : NoDup (np_unique doc).
Proof.
  eapply Permutation_NoDup; [apply np_unique_Permutation | apply NoDup_nodup].
Qed.

Lemma np_unique_count_occ (w : string) (doc : list string) :
  count_occ string_dec (np_unique doc) w = if string_mem w doc then 1 else 0.
Proof.
  destruct (string_mem w doc) eqn:E.
  - apply string_mem_In in E. apply NoDup_count_occ'.
    + apply np_unique_NoDup.
    + apply np_unique_In, E.
  - apply string_mem_false in E. apply count_occ_not_In.
    rewrite np_unique_In. assumption.
Qed.

Lemma np_unique_nil (doc : list string) : np_unique doc = [] <-> doc = [].
Proof.
  split.
  - intros H. destruct doc as [|w doc]; [reflexivity|].
    assert (Hin : In w (np_unique (w :: doc))) by (apply np_unique_In; left; reflexivity).
    rewrite H in Hin. destruct Hin.
  - intros ->. reflexivity.
Qed.

Lemma scan_count_occ (w : string) (c : list (list string)) :
  count_occ string_dec (scan c) w = document_frequency w c.
Proof.
  unfold scan, document_frequency. induction c as [|doc c IH]; simpl.
  - reflexivity.
  - rewrite count_occ_app, np_unique_count_occ, IH.
    destruct (string_mem w doc); reflexivity.
Qed.

Lemma scan_In (w : string) (c : list (list string)) :
  In w (scan c) <-> exists doc, In doc c /\ In w doc.
Proof.
  unfold scan. rewrite in_concat. split.
  - intros [l [Hl Hw]]. apply in_map_iff in Hl as [doc [<- Hdoc]].
    exists doc. split; [assumption | apply np_unique_In, Hw].
  - intros [doc [Hdoc Hw]]. exists (np_unique doc).
    split; [apply in_map, Hdoc | apply np_unique_In, Hw].
Qed.

(** ** Counting: [_words_in_corpus] *)

Lemma count_word_ok (d : Dict.t nat) (w : string) :
  count_word d w = Ok (count_step d w).
Proof.
  unfold count_word, count_step, cnt, Dict.mem, Dict.get.
  destruct (Dict.lookup w d); reflexivity.
Qed.

Lemma count_doc_ok (d : Dict.t nat) (doc : list string) :
  count_doc d doc = Ok (fold_left count_step (np_unique doc) d).
Proof. unfold count_doc. apply foldM_pure, count_word_ok. Qed.

Lemma _words_in_corpus_ok (self : CorpusProcessor) :
  _words_in_corpus self = Ok (set_words_in_corpus self (counted (corpus self))).
Proof.
  unfold _words_in_corpus, counted, scan.
  assert (E : foldM count_doc (corpus self) Dict.empty
              = foldM count_word (concat (map np_unique (corpus self))) Dict.empty).
  { unfold count_doc. apply foldM_concat. }
  rewrite E, (foldM_pure _ count_step) by apply count_word_ok. reflexivity.
Qed.

Lemma keys_count_step (d : Dict.t nat) (w : string) :
  Dict.keys (count_step d w) = add_key (Dict.keys d) w.
Proof.
  unfold count_step, add_key.
  rewrite DictFacts.keys_set, DictFacts.mem_string_mem. reflexivity.
Qed.

Lemma keys_fold_count_step (ws : list string) (d : Dict.t nat) :
  Dict.keys (fold_left count_step ws d) = fold_left add_key ws (Dict.keys d).
Proof.
  revert d. induction ws as [|w ws IH]; intros d; simpl.
  - reflexivity.
  - rewrite IH, keys_count_step. reflexivity.
Qed.

Lemma cnt_count_step (d : Dict.t nat) (w w' : string) :
  cnt w' (count_step d w) = cnt w' d + (if string_dec w w' then 1 else 0).
Proof.
  unfold count_step, cnt at 1. destruct (string_dec w w') as [->|Hne].
  - rewrite DictFacts.lookup_set_same. reflexivity.
  - rewrite DictFacts.lookup_set_other by assumption.
    fold (cnt w' d). lia.
Qed.

Lemma cnt_fold_count_step (ws : list string) (d : Dict.t nat) (w' : string) :
  cnt w' (fold_left count_step ws d) = cnt w' d + count_occ string_dec ws w'.
Proof.
  revert d. induction ws as [|w ws IH]; intros d; simpl.
  - lia.
  - rewrite IH, cnt_count_step. destruct (string_dec w w'); lia.
Qed.

Lemma add_key_NoDup (ks : list string) (w : string) :
  NoDup ks -> NoDup (add_key ks w).
Proof.
  intros H. unfold add_key. destruct (string_mem w ks) eqn:E; [assumption|].
  apply string_mem_false in E.
  apply NoDup_app; [assumption | constructor; [tauto | constructor] |].
  intros x Hx [<-|[]]. tauto.
Qed.

Lemma fold_add_key_NoDup (l ks : list string) :
  NoDup ks -> NoDup (fold_left add_key l ks).
Proof.
  revert ks. induction l as [|w l IH]; intros ks H; simpl.
  - assumption.
  - apply IH, add_key_NoDup, H.
Qed.

Lemma add_key_In (ks : list string) (w x : string) :
  In x (add_key ks w) <-> In x ks \/ x = w.
Proof.
  unfold add_key. destruct (string_mem w ks) eqn:E.
  - apply string_mem_In in E. split; [tauto | intros [H| ->]; assumption].
  - rewrite in_app_iff. simpl. split; intros [H|H]; auto.
    + destruct H as [<-|[]]. auto.
Qed.

Lemma fold_add_key_In (l ks : list string) (x : string) :
  In x (fold_left add_key l ks) <-> In x ks \/ In x l.
Proof.
  revert ks. induction l as [|w l IH]; intros ks; simpl.
  - tauto.
  - rewrite IH, add_key_In. split; intros H; intuition auto.
Qed.

Lemma counted_keys (c : list (list string)) :
  Dict.keys (counted c) = first_seen (scan c).
Proof. unfold counted, first_seen. apply keys_fold_count_step. Qed.

Lemma counted_NoDup (c : list (list string)) : NoDup (Dict.keys (counted c)).
Proof. rewrite counted_keys. apply fold_add_key_NoDup. constructor. Qed.

Lemma counted_cnt (w : string) (c : list (list string)) :
  cnt w (counted c) = document_frequency w c.
Proof.
  unfold counted. rewrite cnt_fold_count_step, scan_count_occ. reflexivity.
Qed.

Lemma counted_keys_In (w : string) (c : list (list string)) :
  In w (Dict.keys (counted c)) <-> exists doc, In doc c /\ In w doc.
Proof.
  rewrite counted_keys. unfold first_seen. rewrite fold_add_key_In, scan_In.
  simpl. tauto.
Qed.

Lemma counted_lookup (w : string) (n : nat) (c : list (list string)) :
  Dict.lookup w (counted c) = Some n -> n = document_frequency w c.
Proof.
  intros H. rewrite <- counted_cnt. unfold cnt. rewrite H. reflexivity.
Qed.

Lemma counted_In (w : string) (n : nat) (c : list (list string)) :
  In (w, n) (counted c) -> n = document_frequency w c /\ c <> [].
Proof.
  intros H. split.
  - apply counted_lookup, DictFacts.In_lookup; [apply counted_NoDup | assumption].
  - intros ->. destruct H.
Qed.

(** ** Filtering: [_filter_words] *)

Lemma _is_out_of_vocab_ok (self : CorpusProcessor) (w : string) (n : nat) :
  D self <> 0 ->
  _is_out_of_vocab self w n = Ok (excluded_at self (D self) w n).
Proof.
  intros HD. unfold _is_out_of_vocab, _is_stop_word, _is_out_of_frequency,
    excluded_at.
  destruct (string_mem w (stop_words self)); simpl; [reflexivity|].
  apply Nat.eqb_neq in HD. rewrite HD. reflexivity.
Qed.

Lemma exclude_step_ok (self : CorpusProcessor) (excluded : Dict.t nat)
    (key : string) (n : nat) :
  D self <> 0 ->
  Dict.lookup key (words_in_corpus self) = Some n ->
  exclude_step self excluded key
  = Ok (if excl self (key, n) then Dict.set key n excluded else excluded).
Proof.
  intros HD Hl. unfold exclude_step, Dict.get. rewrite Hl. simpl.
  rewrite _is_out_of_vocab_ok by assumption. simpl. unfold excl. simpl.
  destruct (excluded_at self (D self) key n); reflexivity.
Qed.

Lemma keys_app {V : Type} (d1 d2 : Dict.t V) :
  Dict.keys (d1 ++ d2) = Dict.keys d1 ++ Dict.keys d2.
Proof. apply map_app. Qed.

Lemma exclude_fold (self : CorpusProcessor) (d1 d2 : Dict.t nat) :
  D self <> 0 ->
  words_in_corpus self = d1 ++ d2 ->
  NoDup (Dict.keys (d1 ++ d2)) ->
  foldM (exclude_step self) (Dict.keys d2) (filter (excl self) d1)
  = Ok (filter (excl self) (d1 ++ d2)).
Proof.
  intros HD. revert d1. induction d2 as [|[k v] d2 IH]; intros d1 Hw Hnd.
  - rewrite app_nil_r. reflexivity.
  - simpl.
    assert (Hl : Dict.lookup k (words_in_corpus self) = Some v).
    { rewrite Hw. apply DictFacts.In_lookup; [assumption|].
      apply in_or_app. right. left. reflexivity. }
    rewrite (exclude_step_ok self _ k v HD Hl). simpl.
    assert (Hfresh : Dict.mem k (filter (excl self) d1) = false).
    { rewrite DictFacts.mem_string_mem. apply string_mem_false.
      rewrite keys_app in Hnd. simpl in Hnd.
      apply NoDup_remove_2 in Hnd. intros Hin. apply Hnd.
      apply in_or_app. left. unfold Dict.keys in *.
      apply in_map_iff in Hin as [[k0 v0] [E Hin]]. simpl in E. subst k0.
      apply filter_In in Hin as [Hin _].
      change k with (fst (k, v0)). apply in_map, Hin. }
    replace (d1 ++ (k, v) :: d2) with ((d1 ++ [(k, v)]) ++ d2) in *
      by (rewrite <- app_assoc; reflexivity).
    rewrite <- (IH (d1 ++ [(k, v)])) by assumption.
    rewrite filter_app. simpl.
    destruct (excl self (k, v)).
    + rewrite DictFacts.set_fresh by assumption. reflexivity.
    + rewrite app_nil_r. reflexivity.
Qed.

Lemma filter_filter {A : Type} (f g : A -> bool) (l : list A) :
  filter f (filter g l) = filter (fun x => g x && f x) l.
Proof.
  induction l as [|a l IH]; simpl; [reflexivity|].
  destruct (g a); simpl; [destruct (f a)|]; rewrite IH; reflexivity.
Qed.

Lemma pop_fold (ks : list string) (d : Dict.t nat) :
  NoDup (Dict.keys d) ->
  incl ks (Dict.keys d) ->
  NoDup ks ->
  foldM (fun d key => Dict.pop key d) ks d
  = Ok (filter (fun kv => negb (string_mem (fst kv) ks)) d).
Proof.
  revert d. induction ks as [|k ks IH]; intros d Hnd Hincl Hks; simpl.
  - rewrite forallb_filter_id; [reflexivity|].
    apply forallb_forall. reflexivity.
  - unfold Dict.pop at 1.
    assert (Hm : Dict.mem k d = true).
    { apply DictFacts.mem_keys, Hincl. left. reflexivity. }
    rewrite Hm. simpl. rewrite DictFacts.remove_filter by assumption.
    inversion Hks as [|? ? Hk Hks']; subst.
    rewrite IH.
    + rewrite filter_filter. f_equal. apply filter_ext. intros [k0 v0]. simpl.
      unfold string_mem. simpl. destruct (String.eqb k0 k); reflexivity.
    + apply DictFacts.keys_filter_NoDup, Hnd.
    + intros x Hx. assert (Hx' : In x (Dict.keys d)) by (apply Hincl; right; exact Hx).
      unfold Dict.keys in *. apply in_map_iff in Hx' as [[k0 v0] [E Hin]].
      simpl in E. subst k0. apply in_map_iff. exists (x, v0). split; [reflexivity|].
      apply filter_In. split; [assumption|]. simpl.
      apply negb_true_iff, String.eqb_neq. intros ->. tauto.
    + assumption.
Qed.

Lemma keys_filter_In (f : string * nat -> bool) (d : Dict.t nat) (k : string)
    (v : nat) :
  NoDup (Dict.keys d) -> In (k, v) d ->
  (In k (Dict.keys (filter f d)) <-> f (k, v) = true).
Proof.
  intros Hnd Hin. unfold Dict.keys. rewrite in_map_iff. split.
  - intros [[k0 v0] [E H]]. simpl in E. subst k0.
    apply filter_In in H as [H Hf].
    assert (v0 = v).
    { apply (DictFacts.In_lookup _ _ _ Hnd) in H.
      apply (DictFacts.In_lookup _ _ _ Hnd) in Hin. congruence. }
    subst. assumption.
  - intros Hf. exists (k, v). split; [reflexivity|].
    apply filter_In. split; assumption.
Qed.

Lemma _filter_words_ok (self : CorpusProcessor) :
  D self <> 0 \/ words_in_corpus self = [] ->
  NoDup (Dict.keys (words_in_corpus self)) ->
  _filter_words self
  = Ok (set_words_in_corpus
          (set_excluded_words self (filter (excl self) (words_in_corpus self)))
          (filter (fun kv => negb (excl self kv)) (words_in_corpus self))).
Proof.
  intros HD Hnd. unfold _filter_words.
  assert (E : foldM (exclude_step self) (Dict.keys (words_in_corpus self))
                Dict.empty
              = Ok (filter (excl self) (words_in_corpus self))).
  { destruct HD as [HD|HD].
    - apply (exclude_fold self [] (words_in_corpus self)); auto.
    - rewrite HD. reflexivity. }
  rewrite E. simpl.
  rewrite pop_fold.
  - simpl. do 2 f_equal. apply filter_ext_in. intros [k v] Hin. simpl.
    f_equal. destruct (excl self (k, v)) eqn:Ex.
    + apply string_mem_In. apply (keys_filter_In _ _ k v); assumption.
    + apply string_mem_false. rewrite (keys_filter_In _ _ k v) by assumption.
      congruence.
  - assumption.
  - intros k Hk. unfold Dict.keys in *.
    apply in_map_iff in Hk as [[k0 v0] [E0 Hin]]. simpl in E0. subst k0.
    apply filter_In in Hin as [Hin _].
    change k with (fst (k, v0)). apply in_map, Hin.
  - apply DictFacts.keys_filter_NoDup, Hnd.
Qed.

(** ** Building documents: [_build_documents] *)

Lemma build_fold (self : CorpusProcessor) (items : list (nat * list string))
    (acc : list (list string) * list nat) :
  fst (fold_left (build_step self) items acc)
  = fst acc ++ filter (fun words => 0 <? length words)
                 (map (fun item => _refine_document self (snd item)) items).
Proof.
  revert acc. induction items as [|item items IH]; intros acc; simpl.
  - rewrite app_nil_r. reflexivity.
  - rewrite IH. unfold build_step.
    destruct (0 <? length (_refine_document self (snd item))); simpl.
    + rewrite <- app_assoc. reflexivity.
    + reflexivity.
Qed.

Lemma map_snd_enumerate {A : Type} (l : list A) : map snd (enumerate l) = l.
Proof.
  unfold enumerate. generalize 0.
  induction l as [|a l IH]; intros s; simpl; [reflexivity|].
  rewrite IH. reflexivity.
Qed.

Lemma length_enumerate {A : Type} (l : list A) :
  length (enumerate l) = length l.
Proof.
  unfold enumerate. rewrite length_combine, length_seq. apply Nat.min_id.
Qed.

Lemma In_enumerate {A : Type} (l : list A) (i : nat) (a : A) :
  In (i, a) (enumerate l) <-> nth_error l i = Some a.
Proof.
  unfold enumerate.
  assert (G : forall s, In (i, a) (combine (seq s (length l)) l)
                        <-> s <= i /\ nth_error l (i - s) = Some a).
  { induction l as [|x l IH]; intros s; simpl.
    - split; [tauto | intros [_ H]; destruct (i - s); discriminate].
    - rewrite IH. split.
      + intros [[= <- <-]|[Hle Hn]].
        * rewrite Nat.sub_diag. auto.
        * split; [lia|]. replace (i - s) with (S (i - S s)) by lia. exact Hn.
      + intros [Hle Hn]. destruct (Nat.eq_dec s i) as [->|Hne].
        * rewrite Nat.sub_diag in Hn. simpl in Hn. injection Hn as ->. auto.
        * right. split; [lia|].
          replace (i - s) with (S (i - S s)) in Hn by lia. exact Hn. }
  rewrite G, Nat.sub_0_r. split; [tauto | intros H; split; [lia | exact H]].
Qed.

Lemma _build_documents_ok (self : CorpusProcessor) :
  _build_documents self
  = let docs := kept_documents (words_in_corpus self) (corpus self) in
    set_D (set_documents self docs) (length docs).
Proof.
  unfold _build_documents. rewrite build_fold. simpl.
  replace (filter _ (map _ (enumerate (corpus self))))
    with (kept_documents (words_in_corpus self) (corpus self)).
  - reflexivity.
  - unfold kept_documents. f_equal.
    rewrite <- (map_snd_enumerate (corpus self)) at 1. rewrite map_map.
    reflexivity.
Qed.

Lemma kept_documents_In (table : Dict.t nat) (c : list (list string))
    (doc : list string) :
  In doc (kept_documents table c) ->
  doc <> [] /\ forall w, In w doc -> In w (Dict.keys table).
Proof.
  unfold kept_documents. intros H. apply filter_In in H as [H Hlen].
  apply in_map_iff in H as [doc0 [<- _]]. split.
  - intros E. rewrite E in Hlen. discriminate.
  - intros w Hw. apply filter_In in Hw as [_ Hw].
    apply DictFacts.mem_keys, Hw.
Qed.

(** ** Vectorising: [_vectorize] *)

Lemma first_pos_lt (w : string) (l : list string) :
  In w l -> first_pos w l < length l.
Proof.
  induction l as [|x l IH]; simpl; [tauto|].
  intros H. destruct (String.eqb_spec x w) as [->|Hne]; [lia|].
  destruct H as [->|H]; [congruence|]. apply IH in H. lia.
Qed.

Lemma list_index_ok (w : string) (l : list string) :
  In w l -> list_index w l = Ok (first_pos w l).
Proof.
  induction l as [|x l IH]; simpl; [tauto|].
  intros H. destruct (String.eqb_spec x w) as [->|Hne]; [reflexivity|].
  destruct H as [->|H]; [congruence|]. rewrite IH by assumption. reflexivity.
Qed.

Lemma map_const_repeat {A B : Type} (b : B) (l : list A) :
  map (fun _ => b) l = repeat b (length l).
Proof. induction l as [|a l IH]; simpl; [|rewrite IH]; reflexivity. Qed.

Lemma vectorize_step_ok (self : CorpusProcessor) (row col data : list nat)
    (item : nat * list string) :
  (forall w, In w (snd item) -> In w (words_in_vocab self)) ->
  vectorize_step self (row, col, data) item
  = Ok (row ++ map tr_row (doc_triples (words_in_vocab self) item),
        col ++ map tr_col (doc_triples (words_in_vocab self) item),
        data ++ map tr_data (doc_triples (words_in_vocab self) item)).
Proof.
  intros Hin. unfold vectorize_step, np_unique_counts, doc_triples.
  rewrite (mapM_pure _ (fun w => first_pos w (words_in_vocab self))).
  - simpl. rewrite !map_map. unfold tr_row, tr_col, tr_data, np_repeat. simpl.
    rewrite map_const_repeat. reflexivity.
  - intros w Hw. apply list_index_ok, Hin, np_unique_In, Hw.
Qed.

Lemma vectorize_fold (self : CorpusProcessor) (items : list (nat * list string))
    (row col data : list nat) :
  (forall item w, In item items -> In w (snd item) ->
                  In w (words_in_vocab self)) ->
  foldM (vectorize_step self) items (row, col, data)
  = Ok (row ++ map tr_row (triples (words_in_vocab self) items),
        col ++ map tr_col (triples (words_in_vocab self) items),
        data ++ map tr_data (triples (words_in_vocab self) items)).
Proof.
  revert row col data. induction items as [|item items IH];
    intros row col data Hin; cbn [foldM].
  - unfold triples. simpl. rewrite !app_nil_r. reflexivity.
  - rewrite vectorize_step_ok by (intros w Hw; apply (Hin item); auto; left; reflexivity).
    simpl. rewrite IH by (intros it w Hit Hw; apply (Hin it); auto; right; assumption).
    unfold triples. simpl. rewrite !map_app, !app_assoc. reflexivity.
Qed.

Lemma triples_In (vocabulary : list string) (items : list (nat * list string))
    (t : nat * nat * nat) :
  In t (triples vocabulary items) <->
  exists item w, In item items /\ In w (snd item) /\
    t = (fst item, first_pos w vocabulary, count_occ string_dec (snd item) w).
Proof.
  unfold triples, doc_triples. rewrite in_concat. split.
  - intros [l [Hl Ht]]. apply in_map_iff in Hl as [item [<- Hitem]].
    apply in_map_iff in Ht as [w [<- Hw]].
    exists item, w. rewrite np_unique_In in Hw. auto.
  - intros [item [w [Hitem [Hw ->]]]].
    eexists. split; [apply in_map, Hitem|].
    apply in_map_iff. exists w. split; [reflexivity | apply np_unique_In, Hw].
Qed.

Lemma csr_matrix_ok (T : list (nat * nat * nat)) (shape : nat * nat) :
  (forall t, In t T -> tr_row t < fst shape /\ tr_col t < snd shape) ->
  csr_matrix (map tr_data T) (map tr_row T) (map tr_col T) shape
  = Ok (csr_of_triples T shape).
Proof.
  intros H. unfold csr_matrix. rewrite !length_map, Nat.eqb_refl. simpl.
  assert (Hr : forallb (fun r => r <? fst shape) (map tr_row T) = true).
  { apply forallb_forall. intros r Hin. apply in_map_iff in Hin as [t [<- Ht]].
    apply Nat.ltb_lt, H, Ht. }
  assert (Hc : forallb (fun c => c <? snd shape) (map tr_col T) = true).
  { apply forallb_forall. intros r Hin. apply in_map_iff in Hin as [t [<- Ht]].
    apply Nat.ltb_lt, H, Ht. }
  rewrite Hr, Hc. reflexivity.
Qed.

(** ** The whole pipeline: [process] *)

Lemma triples_bounds (table : Dict.t nat) (c : list (list string))
    (t : nat * nat * nat) :
  In t (triples (Dict.keys table) (enumerate (kept_documents table c))) ->
  tr_row t < length (kept_documents table c)
  /\ tr_col t < length (enumerate (Dict.keys table))
  /\ 0 < tr_data t.
Proof.
  intros H. apply triples_In in H as [[i doc] [w [Hitem [Hw ->]]]].
  simpl in *. unfold tr_row, tr_col, tr_data. simpl.
  apply In_enumerate in Hitem.
  assert (Hdoc : In doc (kept_documents table c))
    by (eapply nth_error_In; eassumption).
  apply kept_documents_In in Hdoc as [_ Hdoc].
  split; [|split].
  - apply nth_error_Some. congruence.
  - rewrite length_enumerate. apply first_pos_lt, Hdoc, Hw.
  - apply count_occ_In, Hw.
Qed.

Lemma process_ok (self : CorpusProcessor) (c : list (list string)) :
  process self c = Ok (processed self c).
Proof.
  unfold process.
  rewrite _words_in_corpus_ok. cbn [bind].
  rewrite _filter_words_ok.
  2:{ simpl. destruct c as [|doc c]; [right; reflexivity | left; discriminate]. }
  2:{ simpl. apply counted_NoDup. }
  cbn [bind]. rewrite _build_documents_ok. unfold _vectorize.
  cbn [documents set_D set_documents].
  rewrite (vectorize_fold _ _ [] [] []).
  2:{ intros [i doc] w Hitem Hw. simpl in *.
      apply In_enumerate, nth_error_In in Hitem.
      apply kept_documents_In in Hitem as [_ Hdoc]. apply Hdoc, Hw. }
  cbn [bind app]. simpl.
  rewrite csr_matrix_ok.
  - reflexivity.
  - intros t Ht. apply triples_bounds in Ht. simpl. tauto.
Qed.

(** ** Order of the vocabulary *)

Lemma first_pos_app (x : string) (a b : list string) :
  first_pos x (a ++ b)
  = if string_mem x a then first_pos x a else length a + first_pos x b.
Proof.
  induction a as [|y a IH]; simpl; [reflexivity|].
  unfold string_mem in *. simpl. rewrite (String.eqb_sym x y).
  destruct (String.eqb y x); simpl; [reflexivity|].
  rewrite IH. destruct (existsb (String.eqb x) a); reflexivity.
Qed.

Lemma first_pos_nth (l : list string) (i : nat) (u : string) :
  NoDup l -> nth_error l i = Some u -> first_pos u l = i.
Proof.
  revert i. induction l as [|x l IH]; intros i Hnd Hn.
  - destruct i; discriminate.
  - inversion Hnd as [|? ? Hx Hnd']; subst. destruct i as [|i]; simpl in *.
    + injection Hn as ->. rewrite String.eqb_refl. reflexivity.
    + destruct (String.eqb_spec x u) as [->|Hne].
      * exfalso. apply Hx. eapply nth_error_In, Hn.
      * f_equal. apply IH; assumption.
Qed.

Lemma first_pos_filter (g : string -> bool) (ks : list string) (u v : string) :
  In u (filter g ks) -> In v (filter g ks) ->
  (first_pos u (filter g ks) < first_pos v (filter g ks)
   <-> first_pos u ks < first_pos v ks).
Proof.
  induction ks as [|x ks IH]; simpl; [tauto|].
  destruct (g x) eqn:Gx; simpl.
  - intros Hu Hv.
    destruct (String.eqb x u) eqn:Hxu; destruct (String.eqb x v) eqn:Hxv;
      try lia.
    apply String.eqb_neq in Hxu, Hxv.
    destruct Hu as [Hu|Hu]; [congruence|].
    destruct Hv as [Hv|Hv]; [congruence|].
    specialize (IH Hu Hv). lia.
  - intros Hu Hv.
    assert (Hxu : x <> u).
    { intros ->. apply filter_In in Hu as [_ Hu]. congruence. }
    assert (Hxv : x <> v).
    { intros ->. apply filter_In in Hv as [_ Hv]. congruence. }
    apply String.eqb_neq in Hxu, Hxv. rewrite Hxu, Hxv.
    specialize (IH Hu Hv). lia.
Qed.

Lemma first_pos_fold_add_key (l ks : list string) (u v : string) :
  In u (ks ++ l) -> In v (ks ++ l) ->
  (first_pos u (fold_left add_key l ks) < first_pos v (fold_left add_key l ks)
   <-> first_pos u (ks ++ l) < first_pos v (ks ++ l)).
Proof.
  revert ks. induction l as [|w l IH]; intros ks Hu Hv; simpl.
  - rewrite app_nil_r. tauto.
  - destruct (string_mem w ks) eqn:Ew.
    + replace (add_key ks w) with ks by (unfold add_key; rewrite Ew; reflexivity).
      apply string_mem_In in Ew.
      assert (Hin : forall x, In x (ks ++ w :: l) -> In x (ks ++ l)).
      { intros x Hx. apply in_app_or in Hx as [Hx|[<-|Hx]];
          apply in_or_app; auto. }
      rewrite (IH ks) by auto.
      rewrite !first_pos_app. simpl.
      assert (Hlt : forall x, string_mem x ks = true ->
                              first_pos x ks < length ks).
      { intros x Hx. apply first_pos_lt, string_mem_In, Hx. }
      assert (Hne : forall x, string_mem x ks = false -> String.eqb w x = false).
      { intros x Hx. apply String.eqb_neq. intros <-.
        apply string_mem_false in Hx. tauto. }
      destruct (string_mem u ks) eqn:Eu; destruct (string_mem v ks) eqn:Ev;
        try rewrite (Hne u Eu); try rewrite (Hne v Ev);
        try (pose proof (Hlt u Eu)); try (pose proof (Hlt v Ev)); lia.
    + replace (add_key ks w) with (ks ++ [w])
        by (unfold add_key; rewrite Ew; reflexivity).
      rewrite (IH (ks ++ [w])); rewrite <- app_assoc; simpl; tauto.
Qed.

Lemma first_seen_In (l : list string) (x : string) :
  In x (first_seen l) <-> In x l.
Proof. unfold first_seen. rewrite fold_add_key_In. simpl. tauto. Qed.

Lemma first_pos_first_seen (l : list string) (u v : string) :
  In u l -> In v l ->
  (first_pos u (first_seen l) < first_pos v (first_seen l)
   <-> first_pos u l < first_pos v l).
Proof. intros Hu Hv. apply (first_pos_fold_add_key l []); assumption. Qed.

Lemma keys_filter_fst (g : string -> bool) (d : Dict.t nat) :
  Dict.keys (filter (fun kv => g (fst kv)) d) = filter g (Dict.keys d).
Proof.
  unfold Dict.keys. induction d as [|[k v] d' IH]; simpl; [reflexivity|].
  destruct (g k); simpl; rewrite IH; reflexivity.
Qed.

Lemma keys_filter (f : string * nat -> bool) (d : Dict.t nat) :
  NoDup (Dict.keys d) ->
  Dict.keys (filter f d) = filter (fun k => f (k, cnt k d)) (Dict.keys d).
Proof.
  intros Hnd. rewrite <- keys_filter_fst. f_equal.
  apply filter_ext_in. intros [k v] Hin. simpl. unfold cnt.
  rewrite (DictFacts.In_lookup k v d Hnd Hin). reflexivity.
Qed.

Lemma kept_NoDup (self : CorpusProcessor) (c : list (list string)) :
  NoDup (Dict.keys (kept self c)).
Proof. apply DictFacts.keys_filter_NoDup, counted_NoDup. Qed.

Lemma vocabulary_order (self : CorpusProcessor) (c : list (list string))
    (u v : string) :
  In u (Dict.keys (kept self c)) -> In v (Dict.keys (kept self c)) ->
  (first_pos u (Dict.keys (kept self c)) < first_pos v (Dict.keys (kept self c))
   <-> first_pos u (scan c) < first_pos v (scan c)).
Proof.
  unfold kept. rewrite keys_filter by apply counted_NoDup.
  intros Hu Hv. rewrite first_pos_filter by assumption.
  apply filter_In in Hu as [Hu _]. apply filter_In in Hv as [Hv _].
  rewrite counted_keys in *. apply first_pos_first_seen.
  - apply first_seen_In, Hu.
  - apply first_seen_In, Hv.
Qed.

(** * Properties of [CorpusProcessor] *)

(** ** Vocabulary ids *)

(** C1, as stated, fails: with the corpus [[dog, cat], [fish]] the word
    "dog" comes before "cat" in token order, yet "cat" gets id 0 and "dog"
    id 1, because [np.unique] hands the words of a document to the
    frequency table in sorted order. *)
Lemma C1_token_order_counterexample :
  exists st i j,
    process processor_1_0 corpus_dog_cat_fish = Ok st
    /\ In (i, "dog"%string) (vocab st)
    /\ In (j, "cat"%string) (vocab st)
    /\ first_pos "dog"%string (concat corpus_dog_cat_fish)
       < first_pos "cat"%string (concat corpus_dog_cat_fish)
    /\ ~ i < j.
Proof.
  eexists. exists 1, 0. split; [vm_compute; reflexivity|].
  split; [right; left; reflexivity|].
  split; [left; reflexivity|].
  split; [|lia].
  change (first_pos "dog"%string (concat corpus_dog_cat_fish)) with 0.
  change (first_pos "cat"%string (concat corpus_dog_cat_fish)) with 1.
  lia.
Qed.

(** C1, amended: [process] succeeds; the ids are [0 .. W-1], given to the
    keys of the filtered frequency table in its iteration order; and a word
    gets a smaller id than another exactly when its first occurrence comes
    earlier in the scan of [_words_in_corpus], which visits the documents
    in order and the distinct words of each document in the ascending order
    of [np.unique]. *)
Theorem C1_ids_in_scan_order (self : CorpusProcessor)
    (c : list (list string)) :
  exists st,
    process self c = Ok st
    /\ vocab st = enumerate (Dict.keys (words_in_corpus st))
    /\ map fst (vocab st) = seq 0 (W st)
    /\ forall i j u v,
         In (i, u) (vocab st) -> In (j, v) (vocab st) ->
         (i < j <-> first_pos u (scan c) < first_pos v (scan c)).
Proof.
  exists (processed self c). split; [apply process_ok|].
  simpl. split; [reflexivity|]. split.
  - unfold enumerate. rewrite length_combine, length_seq, Nat.min_id.
    generalize 0. induction (Dict.keys (kept self c)) as [|k ks IH];
      intros s; simpl; [reflexivity|]. rewrite IH. reflexivity.
  - intros i j u v Hu Hv. apply In_enumerate in Hu, Hv.
    rewrite <- (first_pos_nth _ _ _ (kept_NoDup self c) Hu) at 1.
    rewrite <- (first_pos_nth _ _ _ (kept_NoDup self c) Hv) at 1.
    apply vocabulary_order; eapply nth_error_In; eassumption.
Qed.

Lemma C1_ids_in_scan_order_witness :
  first_pos "cat"%string (scan corpus_dog_cat_fish)
  < first_pos "dog"%string (scan corpus_dog_cat_fish).
Proof.
  destruct (C1_ids_in_scan_order processor_1_0 corpus_dog_cat_fish)
    as [st [Hp [_ [_ Hord]]]].
  rewrite process_ok in Hp. injection Hp as <-.
  exact (proj1 (Hord 0 1 "cat"%string "dog"%string
                  (or_introl eq_refl) (or_intror (or_introl eq_refl)))
           Nat.lt_0_1).
Defined.

(** ** The end-to-end example *)

(** On the example corpus of C2 the code does not give what C2 states:
    the vocabulary does not have three words, and the matrix is not of
    shape (3, 3) with row sums [2, 2, 3]. *)
Lemma C2_example_counterexample :
  ~ exists st,
      process processor_1_0 corpus_cat_dog_bird = Ok st
      /\ length (vocab st) = 3
      /\ csr_shape (vectorised_documents st) = (3, 3)
      /\ map (csr_row_sum (vectorised_documents st)) [0; 1; 2] = [2; 2; 3].
Proof.
  intros [st [Hp [Hlen _]]].
  assert (E : process processor_1_0 corpus_cat_dog_bird
              = Ok (processed processor_1_0 corpus_cat_dog_bird))
    by apply process_ok.
  rewrite E in Hp. injection Hp as <-. vm_compute in Hlen. discriminate.
Qed.

(** C2 fails on the code.  The docstring of the constructor makes
    [max_relative_frequency] the largest relative frequency with which a
    word is not excluded, so at 1.0 the word "dog", which is in all three
    documents, is to stay, as C2 states.  The code tests [>=]: on the
    example corpus the document frequencies are cat=2, dog=3, bird=2, the
    relative frequency 3/3 of "dog" reaches the bound and "dog" is
    excluded; the vocabulary is cat -> 0, bird -> 1, all three documents
    are kept, and the matrix has shape (3, 2) and row sums [1, 1, 2]. *)
Theorem C2_example :
  exists st,
    process processor_1_0 corpus_cat_dog_bird = Ok st
    /\ map (fun w => document_frequency w corpus_cat_dog_bird)
         ["cat"; "dog"; "bird"]%string = [2; 3; 2]
    /\ excluded_words st = [("dog"%string, 3)]
    /\ vocab st = [(0, "cat"%string); (1, "bird"%string)]
    /\ documents st = [["cat"]; ["bird"]; ["cat"; "bird"]]%string
    /\ csr_shape (vectorised_documents st) = (3, 2)
    /\ map (csr_row_sum (vectorised_documents st)) [0; 1; 2] = [1; 1; 2].
Proof.
  eexists. split; [vm_compute; reflexivity|].
  vm_compute. repeat split; reflexivity.
Qed.

(** ** Filtering thresholds *)

Lemma excluded_at_false (self : CorpusProcessor) (D0 : nat) (w : string)
    (df : nat) :
  excluded_at self D0 w df = false <->
  string_mem w (stop_words self) = false
  /\ ~ (max_relative_frequency self
        <= inject_Z (Z.of_nat df) / inject_Z (Z.of_nat D0))%Q
  /\ ~ (Z.of_nat df <= min_absolute_frequency self)%Z.
Proof.
  unfold excluded_at. rewrite !orb_false_iff.
  rewrite <- Qle_bool_iff, <- Z.leb_le.
  split; intros [H1 [H2 H3]]; repeat split; try assumption;
    try (intros E; congruence).
  - destruct (Qle_bool _ _); [exfalso; apply H2|]; reflexivity.
  - destruct (Z.leb _ _); [exfalso; apply H3|]; reflexivity.
Qed.

Lemma kept_keys_In (self : CorpusProcessor) (c : list (list string))
    (w : string) :
  In w (Dict.keys (kept self c)) <->
  (exists doc, In doc c /\ In w doc)
  /\ excluded_at self (length c) w (document_frequency w c) = false.
Proof.
  unfold kept. rewrite keys_filter by apply counted_NoDup.
  rewrite filter_In, counted_keys_In, counted_cnt. simpl.
  rewrite negb_true_iff. reflexivity.
Qed.

(** C3: [process] succeeds, and a word of the corpus that is no stop word
    is left out of the vocabulary exactly when its document frequency [df]
    satisfies [df <= min_absolute_frequency] or
    [df / D0 >= max_relative_frequency], where [D0] is the length of the
    corpus.  So a word in exactly [min_absolute_frequency] documents is
    left out, a word in [min_absolute_frequency + 1] documents stays unless
    it is too frequent, and a word whose relative frequency equals
    [max_relative_frequency] is left out. *)
Theorem C3_filter_boundaries (self : CorpusProcessor)
    (c : list (list string)) :
  exists st,
    process self c = Ok st
    /\ forall w,
         (exists doc, In doc c /\ In w doc) ->
         string_mem w (stop_words self) = false ->
         let df := document_frequency w c in
         let rel := (inject_Z (Z.of_nat df) / inject_Z (Z.of_nat (length c)))%Q in
         (~ In w (words_in_vocab st) <->
            (Z.of_nat df <= min_absolute_frequency self)%Z
            \/ (max_relative_frequency self <= rel)%Q)
         /\ (Z.of_nat df = min_absolute_frequency self ->
             ~ In w (words_in_vocab st))
         /\ (Z.of_nat df = (min_absolute_frequency self + 1)%Z ->
             ~ (max_relative_frequency self <= rel)%Q ->
             In w (words_in_vocab st))
         /\ ((rel == max_relative_frequency self)%Q ->
             ~ In w (words_in_vocab st)).
Proof.
  exists (processed self c). split; [apply process_ok|].
  intros w Hw Hstop df rel. simpl.
  assert (Hiff : ~ In w (Dict.keys (kept self c)) <->
                 (Z.of_nat df <= min_absolute_frequency self)%Z
                 \/ (max_relative_frequency self <= rel)%Q).
  { rewrite kept_keys_In, excluded_at_false. fold df. fold rel. split.
    - intros H.
      destruct (Z_le_dec (Z.of_nat df) (min_absolute_frequency self));
        [left; assumption|].
      destruct (Qlt_le_dec rel (max_relative_frequency self)) as [Hlt|Hle];
        [|right; assumption].
      exfalso. apply H. repeat split; try assumption.
      apply Qlt_not_le, Hlt.
    - intros [H|H] [_ [_ [H1 H2]]]; tauto. }
  split; [exact Hiff|]. split; [|split].
  - intros E. apply Hiff. left. lia.
  - intros E Hrel.
    destruct (in_dec string_dec w (Dict.keys (kept self c))) as [Hin|Hnin];
      [assumption|].
    apply Hiff in Hnin as [H|H]; [lia | tauto].
  - intros E. apply Hiff. right. rewrite E. apply Qle_refl.
Qed.

Lemma C3_filter_boundaries_witness :
  ~ In "dog"%string
      (words_in_vocab (processed processor_1_0 corpus_cat_dog_bird))
  /\ In "dog"%string
       (words_in_vocab (processed processor_1_0 corpus_dog_cat_fish)).
Proof.
  split.
  - destruct (C3_filter_boundaries processor_1_0 corpus_cat_dog_bird)
      as [st [Hp H]].
    rewrite process_ok in Hp. injection Hp as <-.
    refine (proj2 (proj2 (proj2
             (H "dog"%string
                (ex_intro _ ["cat"; "dog"]%string
                   (conj (or_introl eq_refl) (or_intror (or_introl eq_refl))))
                eq_refl))) _).
    reflexivity.
  - destruct (C3_filter_boundaries processor_1_0 corpus_dog_cat_fish)
      as [st [Hp H]].
    rewrite process_ok in Hp. injection Hp as <-.
    refine (proj1 (proj2 (proj2
             (H "dog"%string
                (ex_intro _ ["dog"; "cat"]%string
                   (conj (or_introl eq_refl) (or_introl eq_refl)))
                eq_refl))) _ _).
    + reflexivity.
    + intros Hle. vm_compute in Hle. apply Hle. reflexivity.
Defined.

(** ** The document count the thresholds divide by *)

Lemma length_kept_documents (table : Dict.t nat) (c : list (list string)) :
  length (kept_documents table c) = D_filtered (Dict.keys table) c.
Proof.
  unfold kept_documents, D_filtered. induction c as [|doc c IH]; simpl.
  - reflexivity.
  - assert (E : (0 <? length (filter (fun word => Dict.mem word table) doc))
                = existsb (fun w => string_mem w (Dict.keys table)) doc).
    { clear IH. induction doc as [|w doc IHd]; simpl; [reflexivity|].
      rewrite <- DictFacts.mem_string_mem.
      destruct (Dict.mem w table); simpl; [reflexivity | exact IHd]. }
    rewrite E. destruct (existsb _ doc); simpl; rewrite IH; reflexivity.
Qed.

Lemma D_filtered_le (vocabulary : list string) (c : list (list string)) :
  D_filtered vocabulary c <= length c.
Proof. apply filter_length_le. Qed.

(** C4: [process] succeeds, and the table it filters is the frequency
    table of the corpus with every entry tested against the length [D0] of
    the input corpus: the kept entries are those that pass the test at
    [D0], the excluded ones those that fail it at [D0].  The document count
    stored at the end is the number of kept documents, which is at most
    [D0] and does not enter the test. *)
Theorem C4_thresholds_use_original_size (self : CorpusProcessor)
    (c : list (list string)) :
  exists st,
    process self c = Ok st
    /\ words_in_corpus st
       = filter (fun kv => negb (excluded_at self (length c) (fst kv) (snd kv)))
           (counted c)
    /\ excluded_words st
       = filter (fun kv => excluded_at self (length c) (fst kv) (snd kv))
           (counted c)
    /\ D st = length (documents st)
    /\ D st <= length c.
Proof.
  exists (processed self c). split; [apply process_ok|]. simpl.
  repeat split. rewrite length_kept_documents. apply D_filtered_le.
Qed.

(** The stored count does change, and the test at the stored count would
    decide otherwise: with three documents [a], [b], [a] and thresholds
    [1.0] and [1], the word "a" stays (2/3 < 1) although two documents are
    left and 2/2 reaches the threshold. *)
Lemma thresholds_not_recomputed_example :
  exists st,
    process processor_1_1 corpus_a_b_a = Ok st
    /\ length corpus_a_b_a = 3
    /\ D st = 2
    /\ words_in_vocab st = ["a"%string]
    /\ excluded_at processor_1_1 (D st) "a"%string
         (document_frequency "a"%string corpus_a_b_a) = true.
Proof.
  eexists. split; [vm_compute; reflexivity|].
  vm_compute. repeat split; reflexivity.
Qed.

(** ** Shape and rows of the document-term matrix *)

Lemma coo_sum_ge (T : list (nat * nat * nat)) (t : nat * nat * nat) :
  In t T ->
  tr_data t
  <= coo_sum (map tr_data T) (map tr_row T) (map tr_col T)
       (tr_row t) (tr_col t).
Proof.
  induction T as [|t0 T IH]; simpl; [tauto|].
  intros [->|H].
  - rewrite !Nat.eqb_refl. simpl. lia.
  - apply IH in H. lia.
Qed.

(** C5: [process] succeeds; the matrix has shape [(D_filtered, W)], with
    [D_filtered] the number of documents of the corpus that contain a word
    of the vocabulary and [W] the size of the vocabulary; every row has a
    positive entry in some column; and the emitted coordinates, one per
    value, lie inside the shape. *)
Theorem C5_matrix_shape_and_rows (self : CorpusProcessor)
    (c : list (list string)) :
  exists st,
    process self c = Ok st
    /\ let m := vectorised_documents st in
       csr_shape m = (D_filtered (words_in_vocab st) c, length (vocab st))
       /\ W st = length (vocab st)
       /\ D st = D_filtered (words_in_vocab st) c
       /\ (forall r, r < fst (csr_shape m) ->
             exists col, col < snd (csr_shape m) /\ 0 < csr_entry m r col)
       /\ length (csr_row m) = length (csr_data m)
       /\ length (csr_col m) = length (csr_data m)
       /\ Forall (fun r => r < D_filtered (words_in_vocab st) c) (csr_row m)
       /\ Forall (fun col => col < length (vocab st)) (csr_col m).
Proof.
  exists (processed self c). split; [apply process_ok|]. simpl.
  rewrite !length_kept_documents.
  split; [reflexivity|]. split; [reflexivity|]. split; [reflexivity|].
  set (table := kept self c).
  set (T := triples (Dict.keys table) (enumerate (kept_documents table c))).
  assert (HT : forall t, In t T ->
             tr_row t < D_filtered (Dict.keys table) c
             /\ tr_col t < length (enumerate (Dict.keys table))
             /\ 0 < tr_data t).
  { intros t Ht. rewrite <- length_kept_documents.
    apply triples_bounds, Ht. }
  split; [|split; [|split; [|split]]].
  - intros r Hr. rewrite <- length_kept_documents in Hr.
    destruct (nth_error (kept_documents table c) r) as [doc|] eqn:En;
      [|apply nth_error_None in En; lia].
    assert (Hdoc : In doc (kept_documents table c))
      by (eapply nth_error_In; eassumption).
    apply kept_documents_In in Hdoc as [Hne _].
    destruct doc as [|w doc]; [congruence|].
    set (t := (r, first_pos w (Dict.keys table),
               count_occ string_dec (w :: doc) w)).
    assert (Ht : In t T).
    { apply triples_In. exists (r, w :: doc), w. split; [|split].
      - apply In_enumerate, En.
      - left. reflexivity.
      - reflexivity. }
    exists (tr_col t). destruct (HT t Ht) as [_ [Hc Hd]]. split; [exact Hc|].
    pose proof (coo_sum_ge T t Ht) as Hge.
    change (tr_row t) with r in Hge.
    unfold csr_entry, csr_of_triples. cbn [csr_data csr_row csr_col].
    eapply Nat.lt_le_trans; [exact Hd | exact Hge].
  - unfold csr_of_triples. simpl. rewrite !length_map. reflexivity.
  - unfold csr_of_triples. simpl. rewrite !length_map. reflexivity.
  - apply Forall_forall. intros r Hr. simpl in Hr.
    apply in_map_iff in Hr as [t [<- Ht]]. apply HT, Ht.
  - apply Forall_forall. intros r Hr. simpl in Hr.
    apply in_map_iff in Hr as [t [<- Ht]]. apply HT, Ht.
Qed.

Lemma C5_matrix_shape_and_rows_witness :
  exists col,
    col < 2
    /\ 0 < csr_entry
             (vectorised_documents (processed processor_1_0 corpus_cat_dog_bird))
             2 col.
Proof.
  destruct (C5_matrix_shape_and_rows processor_1_0 corpus_cat_dog_bird)
    as [st [Hp [_ [_ [_ [Hrow _]]]]]].
  rewrite process_ok in Hp. injection Hp as <-.
  exact (Hrow 2 (le_n 3)).
Defined.

(** ** The default configuration *)

Lemma ratio_nonneg (n d : nat) :
  (0 <= inject_Z (Z.of_nat n) / inject_Z (Z.of_nat d))%Q.
Proof.
  apply Qmult_le_0_compat.
  - change 0%Q with (inject_Z 0). rewrite <- Zle_Qle. lia.
  - apply Qinv_le_0_compat.
    change 0%Q with (inject_Z 0). rewrite <- Zle_Qle. lia.
Qed.

Lemma filter_none {A : Type} (f : A -> bool) (l : list A) :
  (forall a, In a l -> f a = false) -> filter f l = [].
Proof.
  induction l as [|a l IH]; intros H; simpl; [reflexivity|].
  rewrite (H a) by (left; reflexivity).
  apply IH. intros b Hb. apply H. right. exact Hb.
Qed.

Lemma kept_documents_empty (c : list (list string)) :
  kept_documents [] c = [].
Proof.
  unfold kept_documents. apply filter_none. intros ws Hws.
  apply in_map_iff in Hws as [doc [<- _]].
  rewrite filter_none; [reflexivity|]. reflexivity.
Qed.

(** C10: a processor constructed without [max_relative_frequency] has
    [max_relative_frequency = 0.0], whatever the other two arguments and
    the stop-word file are; for every corpus [process] succeeds and leaves
    no word in the frequency table, an empty vocabulary with [W = 0], no
    document, and a matrix of shape (0, 0) without entries. *)
Theorem C10_default_configuration_is_empty (min_abs : option Z)
    (stop : option (list string)) (stop_words_file : list string)
    (c : list (list string)) :
  let self := init None min_abs stop stop_words_file in
  (max_relative_frequency self == 0)%Q
  /\ exists st,
       process self c = Ok st
       /\ words_in_corpus st = []
       /\ excluded_words st = counted c
       /\ vocab st = []
       /\ W st = 0
       /\ documents st = []
       /\ D st = 0
       /\ vectorised_documents st = mk_csr [] [] [] (0, 0).
Proof.
  intros self. split; [reflexivity|].
  exists (processed self c). split; [apply process_ok|].
  assert (Hall : forall kv, In kv (counted c) ->
                   excluded_at self (length c) (fst kv) (snd kv) = true).
  { intros kv _. unfold excluded_at.
    replace (Qle_bool (max_relative_frequency self) _) with true.
    - rewrite orb_true_r. reflexivity.
    - symmetry. apply Qle_bool_iff. apply ratio_nonneg. }
  assert (Hk : kept self c = []).
  { unfold kept. apply filter_none. intros kv Hkv.
    rewrite (Hall kv Hkv). reflexivity. }
  assert (Hr : removed self c = counted c).
  { unfold removed. apply forallb_filter_id, forallb_forall, Hall. }
  unfold processed. rewrite Hk, Hr, kept_documents_empty. simpl.
  repeat split.
Qed.

(** * Properties of the metrics *)

(** ** Topic coherence of fewer than two words *)

Lemma np_mean_nil : np_mean [] = NonFinite.
Proof.
  unfold np_mean, np_div. simpl.
  destruct (Req_EM_T 0 0) as [_|H]; [reflexivity | exfalso; apply H; reflexivity].
Qed.

(** C8, as stated, fails: on the matrix of the example corpus
    [get_topic_coherence] raises nothing for an empty list of words or for
    a single word; it returns [nan]. *)
Lemma C8_no_error_counterexample :
  exists coherence,
    Coherence_init
      (vectorised_documents (processed processor_1_0 corpus_cat_dog_bird))
    = Ok coherence
    /\ get_topic_coherence coherence [] = Ok NonFinite
    /\ get_topic_coherence coherence [0] = Ok NonFinite
    /\ ~ exists e, get_topic_coherence coherence [] = Raise e.
Proof.
  eexists. split; [vm_compute; reflexivity|].
  unfold get_topic_coherence. simpl. rewrite np_mean_nil.
  repeat split. intros [e He]. discriminate.
Qed.

(** C8, amended: called with fewer than two word indexes,
    [get_topic_coherence] raises no exception and computes no NPMI; it
    returns the mean of an empty list, the non-finite value [nan]. *)
Theorem C8_coherence_of_few_words (self : Coherence)
    (word_indexes : list nat) :
  length word_indexes < 2 ->
  get_topic_coherence self word_indexes = Ok NonFinite.
Proof.
  intros H. unfold get_topic_coherence.
  destruct word_indexes as [|w [|w' ws]]; simpl in H; try lia;
    simpl; rewrite np_mean_nil; reflexivity.
Qed.

Lemma C8_coherence_of_few_words_witness :
  get_topic_coherence (mk_Coherence empty_csr [] []) [7] = Ok NonFinite.
Proof.
  apply C8_coherence_of_few_words. apply le_n.
Defined.

(** ** Similarity of fewer than two topics *)

(** C9, as stated, fails: for a topic-word matrix without rows
    [model_similarity] raises nothing and returns the empty list. *)
Lemma C9_no_error_counterexample :
  model_similarity (Similarity_init (mk_ndarray (0, 3) [])) None = Ok []
  /\ model_similarity (Similarity_init (mk_ndarray (0, 3) []))
       (Some "max"%string) = Ok [].
Proof. split; reflexivity. Qed.

(** C9, amended: [model_similarity] does not test [K].  With [K = 0] it
    returns the empty list of scores, whatever the aggregation mode.  With
    [K = 1] the cosine-similarity routine is handed an empty set of other
    topics and raises [ValueError], which reaches the caller. *)
Theorem C9_similarity_of_few_topics (topic_word : ndarray)
    (type : option string) :
  length (nd_rows topic_word) = fst (nd_shape topic_word) ->
  (fst (nd_shape topic_word) = 0 ->
   model_similarity (Similarity_init topic_word) type = Ok [])
  /\ (fst (nd_shape topic_word) = 1 ->
      model_similarity (Similarity_init topic_word) type = Raise ValueError).
Proof.
  intros Hwf. destruct topic_word as [[k w] rows]. simpl in *. split.
  - intros ->. reflexivity.
  - intros ->. destruct rows as [|row [|row' rows]]; try discriminate.
    unfold model_similarity, Similarity_init, get_similarity, np_delete,
      cosine_similarity. simpl.
    rewrite !orb_true_r. reflexivity.
Qed.

Lemma C9_similarity_of_few_topics_witness :
  model_similarity (Similarity_init (mk_ndarray (0, 3) [])) None = Ok []
  /\ model_similarity
       (Similarity_init (mk_ndarray (1, 2) [[1%R; 0%R]])) None
     = Raise ValueError.
Proof.
  split.
  - exact (proj1 (C9_similarity_of_few_topics (mk_ndarray (0, 3) []) None
                    eq_refl) eq_refl).
  - exact (proj2 (C9_similarity_of_few_topics
                    (mk_ndarray (1, 2) [[1%R; 0%R]]) None eq_refl) eq_refl).
Defined.

(** ** Marginals *)

Lemma nth_error_map_seq {A : Type} (f : nat -> A) (n i : nat) :
  i < n -> nth_error (map f (seq 0 n)) i = Some (f i).
Proof.
  intros H. rewrite nth_error_map, nth_error_seq.
  apply Nat.ltb_lt in H. rewrite H. reflexivity.
Qed.

Lemma index_map_seq {A : Type} (f : nat -> A) (n i : nat) :
  i < n -> index (map f (seq 0 n)) i = Ok (f i).
Proof. intros H. unfold index. rewrite nth_error_map_seq by assumption. reflexivity. Qed.

Lemma Q2R_inject_Z (z : Z) : Q2R (inject_Z z) = IZR z.
Proof. unfold Q2R. simpl. rewrite Rinv_1. apply Rmult_1_r. Qed.

Lemma Q2R_ratio (n d : nat) :
  d <> 0 -> Q2R (ratio n d) = (INR n / INR d)%R.
Proof.
  intros Hd. unfold ratio. rewrite Q2R_div.
  - rewrite !Q2R_inject_Z, <- !INR_IZR_INZ. reflexivity.
  - intros E. unfold Qeq in E. simpl in E. lia.
Qed.

Lemma INR_div_pos (n d : nat) : d <> 0 -> 0 < n -> (0 < INR n / INR d)%R.
Proof.
  intros Hd Hn. apply Rdiv_lt_0_compat; apply lt_0_INR; lia.
Qed.

Lemma Qle_bool_ratio (n d : nat) :
  d <> 0 -> Qle_bool (ratio n d) 0 = (n =? 0).
Proof.
  intros Hd. destruct (Nat.eqb_spec n 0) as [->|Hn].
  - apply Qle_bool_iff. unfold ratio. simpl. unfold Qdiv.
    rewrite Qmult_0_l. apply Qle_refl.
  - destruct (Qle_bool (ratio n d) 0) eqn:E; [|reflexivity].
    apply Qle_bool_iff, Qle_Rle in E. rewrite Q2R_ratio in E by assumption.
    pose proof (INR_div_pos n d Hd ltac:(lia)) as Hpos.
    rewrite RMicromega.Q2R_0 in E. lra.
Qed.

Lemma Coherence_init_Ok (X : csr) (self : Coherence) :
  Coherence_init X = Ok self ->
  fst (csr_shape X) <> 0
  /\ pw self = map (fun w => ratio (nw X w) (fst (csr_shape X)))
                 (seq 0 (snd (csr_shape X)))
  /\ pcoo self
     = map (fun i => map (fun j => ratio (coo X i j) (fst (csr_shape X)))
                       (seq 0 (snd (csr_shape X))))
         (seq 0 (snd (csr_shape X))).
Proof.
  unfold Coherence_init, get_marginals.
  destruct (Nat.eqb_spec (fst (csr_shape X)) 0) as [E|E]; [discriminate|].
  intros [= <-]. simpl. auto.
Qed.

Lemma binarized_le_1 (X : csr) (d w : nat) : binarized X d w <= 1.
Proof. unfold binarized. destruct (0 <? csr_entry X d w); lia. Qed.

Lemma sum_nat_map_le (f g : nat -> nat) (l : list nat) :
  (forall d, f d <= g d) -> sum_nat (map f l) <= sum_nat (map g l).
Proof.
  intros H. induction l as [|d l IH]; simpl; [lia|]. specialize (H d). lia.
Qed.

Lemma coo_le_nw_l (X : csr) (i j : nat) : coo X i j <= nw X i.
Proof.
  apply sum_nat_map_le. intros d.
  pose proof (binarized_le_1 X d j). nia.
Qed.

Lemma coo_le_nw_r (X : csr) (i j : nat) : coo X i j <= nw X j.
Proof.
  apply sum_nat_map_le. intros d.
  pose proof (binarized_le_1 X d i). nia.
Qed.

Lemma nw_le_D (X : csr) (i : nat) : nw X i <= fst (csr_shape X).
Proof.
  unfold nw. generalize 0. induction (fst (csr_shape X)) as [|n IH];
    intros s; simpl; [lia|].
  pose proof (binarized_le_1 X s i). specialize (IH (S s)). lia.
Qed.

Lemma sum_nat_zero (f : nat -> nat) (l : list nat) :
  sum_nat (map f l) = 0 <-> forall d, In d l -> f d = 0.
Proof.
  induction l as [|d l IH]; simpl.
  - tauto.
  - rewrite Nat.eq_add_0, IH. split.
    + intros [H0 H] x [<-|Hx]; auto.
    + intros H. split; [apply H; left; reflexivity|].
      intros x Hx. apply H. right. exact Hx.
Qed.

Lemma coo_zero (X : csr) (i j : nat) :
  coo X i j = 0 <->
  forall d, d < fst (csr_shape X) ->
            ~ (0 < csr_entry X d i /\ 0 < csr_entry X d j).
Proof.
  unfold coo. rewrite sum_nat_zero. split.
  - intros H d Hd [Hi Hj]. specialize (H d). rewrite in_seq in H.
    specialize (H ltac:(lia)). unfold binarized in H.
    apply Nat.ltb_lt in Hi, Hj. rewrite Hi, Hj in H. discriminate.
  - intros H d Hd. apply in_seq in Hd. specialize (H d ltac:(lia)).
    unfold binarized.
    destruct (Nat.ltb_spec 0 (csr_entry X d i));
      destruct (Nat.ltb_spec 0 (csr_entry X d j)); try reflexivity.
    exfalso. apply H. split; assumption.
Qed.

(** ** Pairwise NPMI *)

Lemma get_npmi_eq (X : csr) (self : Coherence) (i j : nat) :
  Coherence_init X = Ok self ->
  i < snd (csr_shape X) -> j < snd (csr_shape X) ->
  get_npmi self i j
  = Ok (if coo X i j =? 0 then Finite (-1)
        else npmi_formula (pcoo_real X i j) (pw_real X i) (pw_real X j)).
Proof.
  intros Hinit Hi Hj. apply Coherence_init_Ok in Hinit as [HD [Hpw Hpcoo]].
  unfold get_npmi. rewrite Hpcoo, Hpw.
  rewrite index_map_seq by assumption. cbn [bind].
  rewrite index_map_seq by assumption. cbn [bind].
  rewrite Qle_bool_ratio by assumption.
  destruct (coo X i j =? 0); cbn [negb]; [reflexivity|].
  rewrite !index_map_seq by assumption. cbn [bind].
  unfold QtoR, npmi_formula, pcoo_real, pw_real.
  rewrite !Q2R_ratio by assumption. reflexivity.
Qed.

Lemma ln_le_compat (x y : R) : (0 < x -> x <= y -> ln x <= ln y)%R.
Proof.
  intros Hx [Hlt| ->]; [left; apply ln_increasing; assumption | right; reflexivity].
Qed.

Lemma ln_nonpos (x : R) : (0 < x -> x <= 1 -> ln x <= 0)%R.
Proof. intros Hx Hle. rewrite <- ln_1. apply ln_le_compat; assumption. Qed.

Lemma ln_neg_lt_1 (x : R) : (0 < x -> x < 1 -> ln x < 0)%R.
Proof. intros Hx Hlt. rewrite <- ln_1. apply ln_increasing; assumption. Qed.

Lemma np_div_zero (a : npfloat) (y : R) : y = 0%R -> np_div a (Finite y) = NonFinite.
Proof.
  intros ->. destruct a as [x|]; simpl; [|reflexivity].
  destruct (Req_EM_T 0 0) as [_|N]; [reflexivity | exfalso; apply N; reflexivity].
Qed.

Section Marginals.

Variables (X : csr) (i j : nat).
Hypothesis HD : fst (csr_shape X) <> 0.
Hypothesis Hpos : 0 < coo X i j.

Let p := pcoo_real X i j.
Let p_i := pw_real X i.
Let p_j := pw_real X j.

Lemma INR_D_pos : (0 < INR (fst (csr_shape X)))%R.
Proof. apply lt_0_INR. lia. Qed.

Lemma pcoo_real_pos : (0 < p)%R.
Proof. apply INR_div_pos; assumption. Qed.

Lemma pcoo_le_pw_l : (p <= p_i)%R.
Proof.
  unfold p, p_i, pcoo_real, pw_real. unfold Rdiv.
  apply Rmult_le_compat_r.
  - left. apply Rinv_0_lt_compat, INR_D_pos.
  - apply le_INR, coo_le_nw_l.
Qed.

Lemma pcoo_le_pw_r : (p <= p_j)%R.
Proof.
  unfold p, p_j, pcoo_real, pw_real. unfold Rdiv.
  apply Rmult_le_compat_r.
  - left. apply Rinv_0_lt_compat, INR_D_pos.
  - apply le_INR, coo_le_nw_r.
Qed.

Lemma pw_real_le_1 (k : nat) : (pw_real X k <= 1)%R.
Proof.
  unfold pw_real. pose proof INR_D_pos as HDpos.
  apply (Rmult_le_reg_r (INR (fst (csr_shape X)))); [assumption|].
  unfold Rdiv. rewrite Rmult_assoc, Rinv_l, Rmult_1_r, Rmult_1_l by lra.
  apply le_INR, nw_le_D.
Qed.

Lemma pcoo_real_1 : coo X i j = fst (csr_shape X) -> p = 1%R.
Proof.
  intros E. unfold p, pcoo_real. rewrite E. apply Rdiv_diag.
  pose proof INR_D_pos. lra.
Qed.

Lemma pcoo_real_lt_1 : coo X i j < fst (csr_shape X) -> (p < 1)%R.
Proof.
  intros Hlt. unfold p, pcoo_real. pose proof INR_D_pos as HDpos.
  apply (Rmult_lt_reg_r (INR (fst (csr_shape X)))); [assumption|].
  unfold Rdiv. rewrite Rmult_assoc, Rinv_l, Rmult_1_r, Rmult_1_l by lra.
  apply lt_INR, Hlt.
Qed.

Lemma npmi_formula_finite :
  coo X i j < fst (csr_shape X) ->
  npmi_formula p p_i p_j = Finite (ln (p / (p_i * p_j)) / - ln p).
Proof.
  intros Hlt. pose proof pcoo_real_pos as Hp.
  pose proof pcoo_le_pw_l as Hi. pose proof pcoo_le_pw_r as Hj.
  pose proof (pcoo_real_lt_1 Hlt) as Hp1.
  assert (Hprod : (0 < p_i * p_j)%R) by (apply Rmult_lt_0_compat; lra).
  unfold npmi_formula, np_mul, np_div at 2.
  destruct (Req_EM_T (p_i * p_j) 0) as [E|_]; [lra|].
  unfold np_log.
  destruct (Rlt_dec 0 (p / (p_i * p_j))) as [_|N];
    [|exfalso; apply N, Rdiv_lt_0_compat; assumption].
  destruct (Rlt_dec 0 p) as [_|N]; [|tauto].
  unfold np_neg, np_div.
  pose proof (ln_neg_lt_1 p Hp Hp1).
  destruct (Req_EM_T (- ln p) 0) as [E|_]; [lra | reflexivity].
Qed.

Lemma npmi_formula_not_finite :
  coo X i j = fst (csr_shape X) ->
  npmi_formula p p_i p_j = NonFinite.
Proof.
  intros E. rewrite (pcoo_real_1 E). unfold npmi_formula.
  assert (H1 : np_neg (np_log (Finite 1)) = Finite (- 0)).
  { unfold np_log. destruct (Rlt_dec 0 1) as [_|N]; [|lra].
    rewrite ln_1. reflexivity. }
  rewrite H1. apply np_div_zero. lra.
Qed.

Lemma npmi_value_range :
  coo X i j < fst (csr_shape X) ->
  (-1 <= ln (p / (p_i * p_j)) / - ln p <= 1)%R.
Proof.
  intros Hlt. pose proof pcoo_real_pos as Hp.
  pose proof pcoo_le_pw_l as Hi. pose proof pcoo_le_pw_r as Hj.
  pose proof (pcoo_real_lt_1 Hlt) as Hp1.
  pose proof (pw_real_le_1 i) as Hi1. pose proof (pw_real_le_1 j) as Hj1.
  fold p_i in Hi1. fold p_j in Hj1.
  assert (Hpi : (0 < p_i)%R) by lra. assert (Hpj : (0 < p_j)%R) by lra.
  assert (Hprod : (0 < p_i * p_j)%R) by (apply Rmult_lt_0_compat; lra).
  assert (El : ln (p / (p_i * p_j)) = (ln p - ln p_i - ln p_j)%R).
  { unfold Rdiv. rewrite ln_mult by (try apply Rinv_0_lt_compat; assumption).
    rewrite ln_Rinv by assumption. rewrite ln_mult by assumption. lra. }
  rewrite El.
  pose proof (ln_neg_lt_1 p Hp Hp1) as Hlp.
  pose proof (ln_le_compat p p_i Hp Hi) as Hli.
  pose proof (ln_le_compat p p_j Hp Hj) as Hlj.
  pose proof (ln_nonpos p_i Hpi Hi1) as Hni.
  pose proof (ln_nonpos p_j Hpj Hj1) as Hnj.
  set (lp := ln p) in *. set (li := ln p_i) in *. set (lj := ln p_j) in *.
  assert (Hy : (0 < - lp)%R) by lra.
  assert (Hinv : (0 < / - lp)%R) by (apply Rinv_0_lt_compat, Hy).
  assert (Hone : (- lp * / - lp = 1)%R) by (apply Rinv_r; lra).
  unfold Rdiv. split; nra.
Qed.

End Marginals.

Lemma pcoo_real_cases (X : csr) (i j : nat) :
  fst (csr_shape X) <> 0 ->
  (coo X i j = 0 /\ pcoo_real X i j = 0%R)
  \/ (0 < coo X i j < fst (csr_shape X)
      /\ (0 < pcoo_real X i j < 1)%R)
  \/ (0 < coo X i j /\ coo X i j = fst (csr_shape X)
      /\ pcoo_real X i j = 1%R).
Proof.
  intros HD.
  pose proof (coo_le_nw_l X i j) as H1. pose proof (nw_le_D X i) as H2.
  destruct (Nat.eq_dec (coo X i j) 0) as [E0|N0].
  - left. split; [assumption|]. unfold pcoo_real. rewrite E0. simpl.
    unfold Rdiv. apply Rmult_0_l.
  - right. assert (Hpos : 0 < coo X i j) by lia.
    destruct (Nat.eq_dec (coo X i j) (fst (csr_shape X))) as [E|N].
    + right. split; [assumption|]. split; [assumption|].
      apply pcoo_real_1; assumption.
    + left. assert (Hlt : coo X i j < fst (csr_shape X)) by lia.
      split; [lia|]. split.
      * apply pcoo_real_pos; assumption.
      * apply pcoo_real_lt_1; assumption.
Qed.

(** The tables a [Coherence] holds are the marginals. *)
Lemma stored_marginals (X : csr) (self : Coherence) (i j : nat) :
  Coherence_init X = Ok self ->
  i < snd (csr_shape X) -> j < snd (csr_shape X) ->
  exists q q_i,
    (row <- index (pcoo self) i ;; index row j) = Ok q
    /\ Q2R q = pcoo_real X i j
    /\ index (pw self) i = Ok q_i
    /\ Q2R q_i = pw_real X i.
Proof.
  intros Hinit Hi Hj. apply Coherence_init_Ok in Hinit as [HD [Hpw Hpcoo]].
  exists (ratio (coo X i j) (fst (csr_shape X))),
         (ratio (nw X i) (fst (csr_shape X))).
  rewrite Hpcoo, Hpw. rewrite index_map_seq by assumption. cbn [bind].
  rewrite !index_map_seq by assumption.
  rewrite !Q2R_ratio by assumption. repeat split.
Qed.

(** C6: on a [Coherence] built from a count matrix, for word ids in range,
    [get_npmi] raises nothing.  When [pcoo[i,j] > 0] it returns the value
    of [ln(pcoo[i,j] / (pw[i] * pw[j])) / (-ln(pcoo[i,j]))] in numpy
    arithmetic, which for [pcoo[i,j] < 1] is that real number.  When
    [pcoo[i,j] = 0], which is the case when no document contains both
    words, it returns -1 as a value. *)
Theorem C6_npmi_definition (X : csr) (self : Coherence) (i j : nat) :
  Coherence_init X = Ok self ->
  i < snd (csr_shape X) -> j < snd (csr_shape X) ->
  let p := pcoo_real X i j in
  let p_i := pw_real X i in
  let p_j := pw_real X j in
  ((0 < p)%R -> get_npmi self i j = Ok (npmi_formula p p_i p_j))
  /\ ((0 < p < 1)%R ->
      get_npmi self i j = Ok (Finite (ln (p / (p_i * p_j)) / - ln p)))
  /\ (p = 0%R -> get_npmi self i j = Ok (Finite (-1)))
  /\ ((forall d, d < fst (csr_shape X) ->
                 ~ (0 < csr_entry X d i /\ 0 < csr_entry X d j)) ->
      p = 0%R /\ get_npmi self i j = Ok (Finite (-1))).
Proof.
  intros Hinit Hi Hj p p_i p_j.
  rewrite (get_npmi_eq X self i j Hinit Hi Hj).
  apply Coherence_init_Ok in Hinit as [HD _].
  fold p p_i p_j.
  destruct (pcoo_real_cases X i j HD)
    as [[Hc Hp]|[[Hc Hp]|[Hc [Hc' Hp]]]]; fold p in Hp.
  - rewrite Hc. simpl. repeat split; intros;
      solve [lra | assumption | reflexivity].
  - assert (Hne : (coo X i j =? 0) = false) by (apply Nat.eqb_neq; lia).
    rewrite Hne. split; [reflexivity|]. split; [|split].
    + intros _. unfold p, p_i, p_j. rewrite npmi_formula_finite by lia.
      reflexivity.
    + intros E. lra.
    + intros Hno. apply coo_zero in Hno. lia.
  - assert (Hne : (coo X i j =? 0) = false) by (apply Nat.eqb_neq; lia).
    rewrite Hne. split; [reflexivity|]. split; [|split].
    + intros H. lra.
    + intros E. lra.
    + intros Hno. apply coo_zero in Hno. lia.
Qed.

Lemma C6_npmi_definition_witness :
  let X := vectorised_documents (processed processor_1_0 corpus_dog_cat_fish) in
  exists self,
    Coherence_init X = Ok self
    /\ get_npmi self 0 1
       = Ok (Finite (ln (pcoo_real X 0 1 / (pw_real X 0 * pw_real X 1))
                     / - ln (pcoo_real X 0 1)))
    /\ get_npmi self 0 2 = Ok (Finite (-1)).
Proof.
  intros X. eexists. split; [vm_compute; reflexivity|]. split.
  - refine (proj1 (proj2 (C6_npmi_definition X _ 0 1 eq_refl
                            (le_S _ _ (le_S _ _ (le_n 1)))
                            (le_S _ _ (le_n 2)))) _).
    unfold pcoo_real. change (coo X 0 1) with 1.
    change (fst (csr_shape X)) with 2. simpl. lra.
  - refine (proj1 (proj2 (proj2 (C6_npmi_definition X _ 0 2 eq_refl
                            (le_S _ _ (le_S _ _ (le_n 1))) (le_n 3)))) _).
    unfold pcoo_real. change (coo X 0 2) with 0. simpl. lra.
Defined.

(** ** Range of the NPMI *)

(** For word ids in range [get_npmi] returns a real number of [[-1, 1]],
    unless the two words occur together in every document: then it divides
    by [-ln 1 = 0] and returns a non-finite value. *)
Lemma npmi_range_or_not_finite (X : csr) (self : Coherence) (i j : nat) :
  Coherence_init X = Ok self ->
  i < snd (csr_shape X) -> j < snd (csr_shape X) ->
  (coo X i j = fst (csr_shape X) /\ get_npmi self i j = Ok NonFinite)
  \/ (coo X i j < fst (csr_shape X)
      /\ exists v, get_npmi self i j = Ok (Finite v) /\ (-1 <= v <= 1)%R).
Proof.
  intros Hinit Hi Hj. rewrite (get_npmi_eq X self i j Hinit Hi Hj).
  apply Coherence_init_Ok in Hinit as [HD _].
  destruct (pcoo_real_cases X i j HD)
    as [[Hc Hp]|[[Hc Hp]|[Hc [Hc' Hp]]]].
  - right. split; [lia|]. rewrite Hc. simpl. exists (-1)%R. split; [reflexivity | lra].
  - right. split; [lia|].
    assert (Hne : (coo X i j =? 0) = false) by (apply Nat.eqb_neq; lia).
    rewrite Hne, npmi_formula_finite by lia.
    eexists. split; [reflexivity|]. apply npmi_value_range; lia.
  - left. split; [assumption|].
    assert (Hne : (coo X i j =? 0) = false) by (apply Nat.eqb_neq; lia).
    rewrite Hne, npmi_formula_not_finite by assumption. reflexivity.
Qed.

(** C7 fails on the code: the corpus [[a, c], [b], [a, c]] processed with
    thresholds [1.0] and [1] yields the 2 x 2 matrix of the two documents
    that contain both "a" and "c"; for this pair [pcoo = 1], the division
    by [-ln(pcoo)] is a division by zero, and [get_npmi] returns a
    non-finite value instead of a number of [[-1, 1]]. *)
Theorem C7_npmi_not_finite_on_full_cooccurrence :
  exists st coherence,
    process processor_1_1 corpus_ac_b_ac = Ok st
    /\ vocab st = [(0, "a"%string); (1, "c"%string)]
    /\ csr_shape (vectorised_documents st) = (2, 2)
    /\ Coherence_init (vectorised_documents st) = Ok coherence
    /\ pcoo_real (vectorised_documents st) 0 1 = 1%R
    /\ get_npmi coherence 0 1 = Ok NonFinite.
Proof.
  exists (processed processor_1_1 corpus_ac_b_ac).
  set (X := vectorised_documents (processed processor_1_1 corpus_ac_b_ac)).
  eexists. split; [apply process_ok|].
  split; [reflexivity|]. split; [reflexivity|].
  split; [vm_compute; reflexivity|].
  assert (HD : fst (csr_shape X) <> 0) by (vm_compute; discriminate).
  assert (Hpos : 0 < coo X 0 1) by (vm_compute; lia).
  assert (Hall : coo X 0 1 = fst (csr_shape X)) by reflexivity.
  split; [apply pcoo_real_1; assumption|].
  rewrite (get_npmi_eq X _ 0 1); [| vm_compute; reflexivity | vm_compute; lia ..].
  change (coo X 0 1 =? 0) with false. cbv iota.
  rewrite npmi_formula_not_finite by assumption. reflexivity.
Qed.

(** * Further properties of [CorpusProcessor] *)

(** ** The frequency table *)

Lemma counted_lookup_iff (w : string) (n : nat) (c : list (list string)) :
  Dict.lookup w (counted c) = Some n <->
  (exists doc, In doc c /\ In w doc) /\ n = document_frequency w c.
Proof.
  split.
  - intros H. split; [|apply counted_lookup, H].
    apply counted_keys_In.
    destruct (in_dec string_dec w (Dict.keys (counted c))) as [Hin|Hnin];
      [assumption|].
    apply DictFacts.lookup_None_keys in Hnin. congruence.
  - intros [Hin ->]. apply counted_keys_In in Hin.
    destruct (Dict.lookup w (counted c)) as [n|] eqn:E.
    + f_equal. apply counted_lookup, E.
    + apply DictFacts.lookup_None_keys in E. tauto.
Qed.

Lemma document_frequency_pos (w : string) (c : list (list string)) :
  (exists doc, In doc c /\ In w doc) -> 1 <= document_frequency w c.
Proof.
  intros [doc [Hdoc Hw]]. unfold document_frequency.
  assert (Hin : In doc (filter (string_mem w) c)).
  { apply filter_In. split; [assumption | apply string_mem_In, Hw]. }
  destruct (filter (string_mem w) c); [destruct Hin | simpl; lia].
Qed.

(** [_words_in_corpus] never raises.  The table it builds has one entry
    for each word that occurs in the corpus and no other entry; the entry
    of a word is the number of documents that contain it, however often it
    occurs inside one document, so it lies between 1 and the number of
    documents. *)
Theorem words_in_corpus_counts_documents (self : CorpusProcessor) :
  exists st,
    _words_in_corpus self = Ok st
    /\ NoDup (Dict.keys (words_in_corpus st))
    /\ forall w n,
         Dict.lookup w (words_in_corpus st) = Some n <->
         (exists doc, In doc (corpus self) /\ In w doc)
         /\ n = length (filter (fun doc => string_mem w doc) (corpus self))
         /\ 1 <= n <= length (corpus self).
Proof.
  exists (set_words_in_corpus self (counted (corpus self))).
  split; [apply _words_in_corpus_ok|]. simpl.
  split; [apply counted_NoDup|].
  intros w n. rewrite counted_lookup_iff. fold (document_frequency w (corpus self)).
  split.
  - intros [Hin ->]. split; [assumption|]. split; [reflexivity|]. split.
    + apply document_frequency_pos, Hin.
    + apply filter_length_le.
  - intros [Hin [-> _]]. split; [assumption | reflexivity].
Qed.

Lemma words_in_corpus_counts_documents_witness :
  Dict.lookup "dog"%string
    (counted [["dog"; "dog"; "cat"]; ["dog"]]%string) = Some 2.
Proof.
  destruct (words_in_corpus_counts_documents
              (set_corpus processor_1_0 [["dog"; "dog"; "cat"]; ["dog"]]%string))
    as [st [Hst [_ H]]].
  rewrite _words_in_corpus_ok in Hst. injection Hst as <-.
  apply (proj2 (H "dog"%string 2)).
  split; [exists ["dog"]%string; split; [right; left|left]; reflexivity|].
  split; [reflexivity|]. split; [apply le_S, le_n | apply le_n].
Defined.

(** ** What the vocabulary holds *)

Lemma processed_vocab_In (self : CorpusProcessor) (c : list (list string))
    (w : string) :
  In w (words_in_vocab (processed self c)) <->
  (exists doc, In doc c /\ In w doc)
  /\ excluded_at self (length c) w (document_frequency w c) = false.
Proof. simpl. apply kept_keys_In. Qed.

(** After [process] no stop word is in the vocabulary or in a kept
    document, and every word of the vocabulary occurs in the corpus, in
    more than [min_absolute_frequency] documents and in a share of the
    documents below [max_relative_frequency]. *)
Theorem vocabulary_words_pass_every_test (self : CorpusProcessor)
    (c : list (list string)) :
  exists st,
    process self c = Ok st
    /\ (forall w, In w (stop_words self) ->
          ~ In w (words_in_vocab st)
          /\ forall doc, In doc (documents st) -> ~ In w doc)
    /\ (forall w, In w (words_in_vocab st) ->
          (exists doc, In doc c /\ In w doc)
          /\ (min_absolute_frequency self
              < Z.of_nat (document_frequency w c))%Z
          /\ (inject_Z (Z.of_nat (document_frequency w c))
              / inject_Z (Z.of_nat (length c))
              < max_relative_frequency self)%Q).
Proof.
  exists (processed self c). split; [apply process_ok|].
  assert (Hstop : forall w, In w (stop_words self) ->
                            ~ In w (words_in_vocab (processed self c))).
  { intros w Hw Hin. apply processed_vocab_In in Hin as [_ Hex].
    apply excluded_at_false in Hex as [Hs _].
    apply string_mem_false in Hs. tauto. }
  split.
  - intros w Hw. split; [apply Hstop, Hw|].
    intros doc Hdoc Hin. simpl in Hdoc.
    apply kept_documents_In in Hdoc as [_ Hdoc].
    apply (Hstop w Hw). simpl. apply Hdoc, Hin.
  - intros w Hin. apply processed_vocab_In in Hin as [Hocc Hex].
    apply excluded_at_false in Hex as [_ [Hrel Habs]].
    split; [assumption|]. split; [lia|].
    apply Qnot_le_lt, Hrel.
Qed.

Lemma vocabulary_words_pass_every_test_witness :
  ~ In "cat"%string
      (words_in_vocab
         (processed (init (Some 1%Q) (Some 0%Z) (Some ["cat"%string]) [])
            corpus_dog_cat_fish)).
Proof.
  destruct (vocabulary_words_pass_every_test
              (init (Some 1%Q) (Some 0%Z) (Some ["cat"%string]) [])
              corpus_dog_cat_fish) as [st [Hst [H _]]].
  rewrite process_ok in Hst. injection Hst as <-.
  exact (proj1 (H "cat"%string (or_introl eq_refl))).
Defined.

(** ** Word ids and the vocabulary *)

Lemma list_index_Raise (w : string) (l : list string) :
  ~ In w l -> list_index w l = Raise ValueError.
Proof.
  induction l as [|x l IH]; simpl; [reflexivity|].
  intros H. destruct (String.eqb_spec x w) as [->|Hne]; [tauto|].
  rewrite IH by tauto. reflexivity.
Qed.

Lemma list_index_Ok_iff (w : string) (l : list string) (i : nat) :
  NoDup l -> (list_index w l = Ok i <-> nth_error l i = Some w).
Proof.
  intros Hnd. split.
  - intros H. destruct (in_dec string_dec w l) as [Hin|Hnin].
    + rewrite list_index_ok in H by assumption. injection H as <-.
      clear Hnd. induction l as [|x l IH]; simpl in *; [tauto|].
      destruct (String.eqb_spec x w) as [->|Hne]; [reflexivity|].
      apply IH. tauto.
    + rewrite list_index_Raise in H by assumption. discriminate.
  - intros H. rewrite list_index_ok by (eapply nth_error_In, H).
    f_equal. apply first_pos_nth; assumption.
Qed.

(** After [process] the vocabulary holds no word twice, its ids are the
    numbers below [W], and [_get_word_id] inverts it: the id of a word is
    [i] exactly when the vocabulary maps [i] to the word, and asking for
    the id of a word outside the vocabulary raises [ValueError]. *)
Theorem word_ids_invert_the_vocabulary (self : CorpusProcessor)
    (c : list (list string)) :
  exists st,
    process self c = Ok st
    /\ NoDup (words_in_vocab st)
    /\ (forall i w, In (i, w) (get_vocab st) <-> _get_word_id st w = Ok i)
    /\ (forall i, i < W st <-> exists w, In (i, w) (get_vocab st))
    /\ (forall w, ~ In w (words_in_vocab st) ->
                  _get_word_id st w = Raise ValueError).
Proof.
  exists (processed self c). split; [apply process_ok|].
  unfold get_vocab, _get_word_id. simpl.
  pose proof (kept_NoDup self c) as Hnd.
  split; [assumption|]. split; [|split].
  - intros i w. rewrite In_enumerate, list_index_Ok_iff by assumption.
    reflexivity.
  - intros i. rewrite length_enumerate, <- nth_error_Some. split.
    + intros H. destruct (nth_error (Dict.keys (kept self c)) i) as [w|] eqn:E;
        [|congruence].
      exists w. apply In_enumerate, E.
    + intros [w Hw]. apply In_enumerate in Hw. congruence.
  - intros w. apply list_index_Raise.
Qed.

Lemma word_ids_invert_the_vocabulary_witness :
  _get_word_id (processed processor_1_0 corpus_dog_cat_fish) "bird"%string
  = Raise ValueError.
Proof.
  destruct (word_ids_invert_the_vocabulary processor_1_0 corpus_dog_cat_fish)
    as [st [Hst [_ [_ [_ H]]]]].
  rewrite process_ok in Hst. injection Hst as <-.
  apply H. simpl. intros [E|[E|[E|[]]]]; discriminate E.
Defined.

(** ** Kept and excluded entries *)

Lemma lookup_filter (f : string * nat -> bool) (d : Dict.t nat) (w : string) :
  NoDup (Dict.keys d) ->
  Dict.lookup w (filter f d)
  = match Dict.lookup w d with
    | Some n => if f (w, n) then Some n else None
    | None => None
    end.
Proof.
  induction d as [|[k v] d IH]; simpl; [reflexivity|].
  intros Hnd. inversion Hnd as [|? ? Hk Hnd']; subst.
  destruct (String.eqb_spec k w) as [->|Hne].
  - destruct (f (w, v)) eqn:Ef; simpl.
    + rewrite String.eqb_refl. reflexivity.
    + apply DictFacts.lookup_None_keys. intros Hin. apply Hk.
      unfold Dict.keys in *. apply in_map_iff in Hin as [[k0 v0] [E Hin]].
      simpl in E. subst k0. apply filter_In in Hin as [Hin _].
      change w with (fst (w, v0)). apply in_map, Hin.
  - destruct (f (k, v)); simpl.
    + apply String.eqb_neq in Hne. rewrite Hne. apply IH, Hnd'.
    + apply IH, Hnd'.
Qed.

(** After [process] every word of the corpus is in exactly one of the two
    tables, [words_in_corpus] (kept) or [excluded_words], with its
    document frequency as its entry; a word that does not occur in the
    corpus is in neither. *)
Theorem every_word_is_kept_or_excluded (self : CorpusProcessor)
    (c : list (list string)) :
  exists st,
    process self c = Ok st
    /\ (forall w, (exists doc, In doc c /\ In w doc) ->
          let n := document_frequency w c in
          (Dict.lookup w (words_in_corpus st) = Some n
           /\ Dict.lookup w (excluded_words st) = None)
          \/ (Dict.lookup w (words_in_corpus st) = None
              /\ Dict.lookup w (excluded_words st) = Some n))
    /\ (forall w, ~ (exists doc, In doc c /\ In w doc) ->
          Dict.lookup w (words_in_corpus st) = None
          /\ Dict.lookup w (excluded_words st) = None).
Proof.
  exists (processed self c). split; [apply process_ok|]. simpl.
  unfold kept, removed. split.
  - intros w Hw. set (n := document_frequency w c).
    rewrite !lookup_filter by apply counted_NoDup.
    assert (E : Dict.lookup w (counted c) = Some n)
      by (apply counted_lookup_iff; split; [assumption | reflexivity]).
    rewrite E. simpl. destruct (excluded_at self (length c) w n); simpl; auto.
  - intros w Hw. rewrite !lookup_filter by apply counted_NoDup.
    assert (E : Dict.lookup w (counted c) = None).
    { apply DictFacts.lookup_None_keys. rewrite counted_keys_In. exact Hw. }
    rewrite E. auto.
Qed.

Lemma every_word_is_kept_or_excluded_witness :
  Dict.lookup "bird"%string
    (words_in_corpus (processed processor_1_0 corpus_dog_cat_fish)) = None
  /\ Dict.lookup "bird"%string
       (excluded_words (processed processor_1_0 corpus_dog_cat_fish)) = None.
Proof.
  destruct (every_word_is_kept_or_excluded processor_1_0 corpus_dog_cat_fish)
    as [st [Hst [_ H]]].
  rewrite process_ok in Hst. injection Hst as <-.
  apply H. intros [doc [Hdoc Hw]]. simpl in Hdoc.
  destruct Hdoc as [<-|[<-|[]]]; simpl in Hw;
    repeat (destruct Hw as [Hw|Hw]; [discriminate Hw|]); exact Hw.
Defined.

(** ** Kept documents *)

(** After [process] the kept documents are the documents of the corpus, in
    their order, each cut down to its vocabulary words (order and
    repetition of these unchanged), without the ones left empty; [D] is
    their number; and every word of the vocabulary still occurs in a kept
    document, so no column of the matrix is empty. *)
Theorem kept_documents_hold_vocabulary_words (self : CorpusProcessor)
    (c : list (list string)) :
  exists st,
    process self c = Ok st
    /\ get_documents st
       = filter (fun words => negb (length words =? 0))
           (map (filter (fun w => string_mem w (words_in_vocab st))) c)
    /\ D st = length (get_documents st)
    /\ (forall doc, In doc (get_documents st) ->
          doc <> [] /\ forall w, In w doc -> In w (words_in_vocab st))
    /\ (forall w, In w (words_in_vocab st) ->
          exists doc, In doc (get_documents st) /\ In w doc).
Proof.
  exists (processed self c). split; [apply process_ok|].
  unfold get_documents. simpl.
  assert (Eref : forall doc,
             filter (fun w => string_mem w (Dict.keys (kept self c))) doc
             = filter (fun word => Dict.mem word (kept self c)) doc).
  { intros doc. apply filter_ext. intros w.
    symmetry. apply DictFacts.mem_string_mem. }
  split; [|split; [reflexivity|split]].
  - unfold kept_documents. rewrite (map_ext _ _ Eref).
    apply filter_ext. intros ws. destruct ws; reflexivity.
  - intros doc Hdoc. eapply kept_documents_In. exact Hdoc.
  - intros w Hw. pose proof Hw as Hocc.
    apply kept_keys_In in Hocc as [[doc [Hdoc Hin]] _].
    exists (filter (fun word => Dict.mem word (kept self c)) doc).
    assert (Hin' : In w (filter (fun word => Dict.mem word (kept self c)) doc)).
    { apply filter_In. split; [assumption | apply DictFacts.mem_keys, Hw]. }
    split; [|assumption].
    unfold kept_documents. apply filter_In. split.
    + apply in_map, Hdoc.
    + destruct (filter _ doc); [destruct Hin' | reflexivity].
Qed.

Lemma kept_documents_hold_vocabulary_words_witness :
  exists doc,
    In doc (get_documents (processed processor_1_1 corpus_a_b_a))
    /\ In "a"%string doc.
Proof.
  destruct (kept_documents_hold_vocabulary_words processor_1_1 corpus_a_b_a)
    as [st [Hst [_ [_ [_ H]]]]].
  rewrite process_ok in Hst. injection Hst as <-.
  apply H. left. reflexivity.
Defined.

(** ** Entries of the document-term matrix *)

Lemma triples_entry_app (T1 T2 : list (nat * nat * nat)) (r c : nat) :
  triples_entry (T1 ++ T2) r c = triples_entry T1 r c + triples_entry T2 r c.
Proof.
  unfold triples_entry. induction T1 as [|t T1 IH]; simpl; [reflexivity|].
  rewrite IH. lia.
Qed.

Lemma triples_entry_zero (T : list (nat * nat * nat)) (r c : nat) :
  (forall t, In t T -> tr_row t <> r \/ tr_col t <> c) ->
  triples_entry T r c = 0.
Proof.
  unfold triples_entry. induction T as [|t T IH]; simpl; [reflexivity|].
  intros H. rewrite IH by (intros t' Ht'; apply H; right; exact Ht').
  destruct (H t (or_introl eq_refl)) as [Hr|Hc].
  - apply Nat.eqb_neq in Hr. rewrite Hr. reflexivity.
  - apply Nat.eqb_neq in Hc. rewrite Hc, andb_false_r. reflexivity.
Qed.

Lemma first_pos_nth_error (w : string) (l : list string) :
  In w l -> nth_error l (first_pos w l) = Some w.
Proof.
  induction l as [|x l IH]; simpl; [tauto|].
  intros H. destruct (String.eqb_spec x w) as [->|Hne]; [reflexivity|].
  apply IH. tauto.
Qed.

Lemma doc_triples_entry (ws : list string) (f : string -> nat)
    (l : list string) (r c : nat) (w : string) :
  NoDup ws -> nth_error ws c = Some w ->
  NoDup l -> (forall x, In x l -> In x ws) ->
  triples_entry (map (fun x => (r, first_pos x ws, f x)) l) r c
  = if in_dec string_dec w l then f w else 0.
Proof.
  intros Hws Hc. induction l as [|x l IH]; intros Hl Hincl; [reflexivity|].
  inversion Hl as [|? ? Hx Hl']; subst.
  change (map (fun x0 => (r, first_pos x0 ws, f x0)) (x :: l))
    with ([(r, first_pos x ws, f x)]
          ++ map (fun x0 => (r, first_pos x0 ws, f x0)) l).
  rewrite triples_entry_app, IH by (auto; intros; apply Hincl; right; assumption).
  unfold triples_entry at 1. simpl. unfold tr_row, tr_col, tr_data. simpl.
  rewrite Nat.eqb_refl. simpl.
  destruct (string_dec x w) as [->|Hne].
  - rewrite (first_pos_nth ws c w Hws Hc), Nat.eqb_refl.
    destruct (in_dec string_dec w l) as [Hin|_]; [tauto | lia].
  - assert (Hpos : first_pos x ws <> c).
    { intros E. pose proof (first_pos_nth_error x ws
                              (Hincl x (or_introl eq_refl))) as Hn.
      rewrite E in Hn. congruence. }
    apply Nat.eqb_neq in Hpos. rewrite Hpos. simpl.
    destruct (in_dec string_dec w l) as [Hin|Hnin];
      destruct (in_dec string_dec w (x :: l)) as [Hin'|Hnin'];
      simpl in *; try reflexivity; try tauto.
Qed.

Lemma items_entry (ws : list string) (items : list (nat * list string))
    (r c : nat) (doc : list string) :
  NoDup (map fst items) -> In (r, doc) items ->
  triples_entry (triples ws items) r c
  = triples_entry (doc_triples ws (r, doc)) r c.
Proof.
  induction items as [|it items IH]; simpl; [tauto|].
  intros Hnd Hin. inversion Hnd as [|? ? Hit Hnd']; subst.
  unfold triples. simpl. fold (triples ws items). rewrite triples_entry_app.
  destruct Hin as [->|Hin].
  - rewrite (triples_entry_zero (triples ws items)); [lia|].
    intros t Ht. left. apply triples_In in Ht as [it [w [Hi [_ ->]]]].
    unfold tr_row. simpl. intros E. apply Hit. simpl. rewrite <- E.
    apply in_map, Hi.
  - rewrite IH by assumption.
    rewrite (triples_entry_zero (doc_triples ws it)); [lia|].
    intros t Ht. left. unfold doc_triples in Ht.
    apply in_map_iff in Ht as [w [<- _]]. unfold tr_row. simpl.
    intros E. apply Hit. rewrite E. change r with (fst (r, doc)).
    apply in_map, Hin.
Qed.

Lemma map_fst_enumerate {A : Type} (l : list A) :
  map fst (enumerate l) = seq 0 (length l).
Proof.
  unfold enumerate. generalize 0.
  induction l as [|a l IH]; intros s; simpl; [reflexivity|].
  rewrite IH. reflexivity.
Qed.

Lemma processed_entry (self : CorpusProcessor) (c : list (list string))
    (r col : nat) (doc : list string) (w : string) :
  nth_error (documents (processed self c)) r = Some doc ->
  nth_error (words_in_vocab (processed self c)) col = Some w ->
  csr_entry (vectorised_documents (processed self c)) r col
  = count_occ string_dec doc w.
Proof.
  simpl. intros Hr Hc.
  change (csr_entry _ r col)
    with (triples_entry
            (triples (Dict.keys (kept self c))
               (enumerate (kept_documents (kept self c) c))) r col).
  rewrite (items_entry _ _ r col doc).
  - unfold doc_triples. simpl.
    rewrite (doc_triples_entry _ _ _ r col w (kept_NoDup self c) Hc).
    + destruct (in_dec string_dec w (np_unique doc)) as [_|Hnin];
        [reflexivity|].
      symmetry. apply count_occ_not_In. rewrite <- np_unique_In. exact Hnin.
    + apply np_unique_NoDup.
    + intros x Hx. rewrite np_unique_In in Hx.
      apply nth_error_In in Hr.
      apply kept_documents_In in Hr as [_ Hr]. apply Hr, Hx.
  - rewrite map_fst_enumerate. apply seq_NoDup.
  - apply In_enumerate, Hr.
Qed.

(** After [process] the entry of the matrix at row [r] and column [col] is
    the number of times the word with id [col] occurs in the kept document
    [r]; there is no entry outside these rows and columns. *)
Theorem matrix_entries_are_term_counts (self : CorpusProcessor)
    (c : list (list string)) :
  exists st,
    process self c = Ok st
    /\ (forall r col doc w,
          nth_error (get_documents st) r = Some doc ->
          In (col, w) (get_vocab st) ->
          csr_entry (get_vectorised_documents st) r col
          = count_occ string_dec doc w)
    /\ (forall r col, D st <= r \/ W st <= col ->
          csr_entry (get_vectorised_documents st) r col = 0).
Proof.
  exists (processed self c). split; [apply process_ok|].
  unfold get_documents, get_vocab, get_vectorised_documents. split.
  - intros r col doc w Hr Hc. apply processed_entry; [exact Hr|].
    apply In_enumerate, Hc.
  - intros r col Hout. simpl.
    change (csr_entry _ r col)
      with (triples_entry
              (triples (Dict.keys (kept self c))
                 (enumerate (kept_documents (kept self c) c))) r col).
    apply triples_entry_zero. intros t Ht.
    apply triples_bounds in Ht as [Hr [Hc _]]. simpl in Hout. lia.
Qed.

Lemma matrix_entries_are_term_counts_witness :
  csr_entry
    (get_vectorised_documents
       (processed processor_1_0 [["dog"; "cat"; "dog"]; ["fish"]]%string))
    0 1 = 2.
Proof.
  destruct (matrix_entries_are_term_counts processor_1_0
              [["dog"; "cat"; "dog"]; ["fish"]]%string) as [st [Hst [H _]]].
  rewrite process_ok in Hst. injection Hst as <-.
  exact (H 0 1 ["dog"; "cat"; "dog"]%string "dog"%string eq_refl
           (or_intror (or_introl eq_refl))).
Defined.

Lemma sum_nat_add (f g : string -> nat) (l : list string) :
  sum_nat (map (fun w => f w + g w) l) = sum_nat (map f l) + sum_nat (map g l).
Proof. induction l as [|x l IH]; simpl; [reflexivity|]. rewrite IH. lia. Qed.

Lemma sum_nat_indicator (x : string) (l : list string) :
  sum_nat (map (fun w => if string_dec x w then 1 else 0) l)
  = count_occ string_dec l x.
Proof.
  induction l as [|y l IH]; simpl; [reflexivity|]. rewrite IH.
  destruct (string_dec x y) as [E|N]; destruct (string_dec y x) as [E'|N'];
    try reflexivity; congruence.
Qed.

Lemma sum_count_occ (ws doc : list string) :
  NoDup ws -> (forall w, In w doc -> In w ws) ->
  sum_nat (map (count_occ string_dec doc) ws) = length doc.
Proof.
  intros Hnd. induction doc as [|x doc IH]; intros Hincl.
  - clear. induction ws as [|w ws IHw]; simpl; [reflexivity | exact IHw].
  - rewrite (map_ext _ (fun w => (if string_dec x w then 1 else 0)
                                 + count_occ string_dec doc w)).
    + rewrite sum_nat_add, sum_nat_indicator, IH
        by (intros; apply Hincl; right; assumption).
      rewrite (proj1 (NoDup_count_occ' string_dec ws) Hnd x)
        by (apply Hincl; left; reflexivity).
      reflexivity.
    + intros w. simpl. destruct (string_dec x w); reflexivity.
Qed.

Lemma map_seq_nth_error {A B : Type} (g : nat -> B) (h : A -> B) (l : list A) :
  (forall i a, nth_error l i = Some a -> g i = h a) ->
  map g (seq 0 (length l)) = map h l.
Proof.
  revert g. induction l as [|a l IH]; intros g H; simpl; [reflexivity|].
  rewrite (H 0 a eq_refl). f_equal.
  rewrite <- seq_shift, map_map. apply IH.
  intros i b Hi. apply (H (S i) b Hi).
Qed.

(** After [process] the entries of a row of the matrix add up to the
    number of tokens of the kept document of that row. *)
Theorem matrix_row_sums_are_document_lengths (self : CorpusProcessor)
    (c : list (list string)) :
  exists st,
    process self c = Ok st
    /\ forall r doc,
         nth_error (get_documents st) r = Some doc ->
         csr_row_sum (get_vectorised_documents st) r = length doc
         /\ 0 < length doc.
Proof.
  exists (processed self c). split; [apply process_ok|].
  unfold get_documents, get_vectorised_documents. intros r doc Hr.
  pose proof (nth_error_In _ _ Hr) as Hdoc. simpl in Hdoc.
  apply kept_documents_In in Hdoc as [Hne Hincl]. split.
  - unfold csr_row_sum.
    replace (snd (csr_shape (vectorised_documents (processed self c))))
      with (length (words_in_vocab (processed self c)))
      by (simpl; rewrite length_enumerate; reflexivity).
    rewrite (map_seq_nth_error _ (count_occ string_dec doc)).
    + apply sum_count_occ; [apply kept_NoDup | exact Hincl].
    + intros col w Hc. apply processed_entry; assumption.
  - destruct doc; [congruence | simpl; lia].
Qed.

Lemma matrix_row_sums_are_document_lengths_witness :
  csr_row_sum
    (get_vectorised_documents
       (processed processor_1_0 [["dog"; "cat"; "dog"]; ["fish"]]%string))
    0 = 3.
Proof.
  destruct (matrix_row_sums_are_document_lengths processor_1_0
              [["dog"; "cat"; "dog"]; ["fish"]]%string) as [st [Hst H]].
  rewrite process_ok in Hst. injection Hst as <-.
  exact (proj1 (H 0 ["dog"; "cat"; "dog"]%string eq_refl)).
Defined.

(** ** Reusing a processor *)

(** [process] reads nothing that an earlier run has stored: a processor
    that has processed one corpus and then processes a second one ends in
    the state in which a processor that only processes the second ends. *)
Theorem process_forgets_the_previous_run (self : CorpusProcessor)
    (c1 c2 : list (list string)) :
  (st1 <- process self c1 ;; process st1 c2) = process self c2.
Proof. rewrite (process_ok self c1). simpl. rewrite !process_ok. reflexivity. Qed.

(** * Further properties of [Coherence] *)

(** ** Invariants of the marginals *)

Lemma coo_sym (X : csr) (i j : nat) : coo X i j = coo X j i.
Proof.
  unfold coo. f_equal. apply map_ext. intros d. apply Nat.mul_comm.
Qed.

Lemma coo_diag (X : csr) (i : nat) : coo X i i = nw X i.
Proof.
  unfold coo, nw. f_equal. apply map_ext. intros d. unfold binarized.
  destruct (0 <? csr_entry X d i); reflexivity.
Qed.

Lemma ratio_le (n m d : nat) : n <= m -> (ratio n d <= ratio m d)%Q.
Proof.
  intros H. unfold ratio, Qdiv. apply Qmult_le_compat_r.
  - rewrite <- Zle_Qle. lia.
  - apply Qinv_le_0_compat. change 0%Q with (inject_Z 0).
    rewrite <- Zle_Qle. lia.
Qed.

Lemma ratio_diag (d : nat) : d <> 0 -> (ratio d d == 1)%Q.
Proof.
  intros H. unfold ratio, Qdiv. apply Qmult_inv_r.
  intros E. unfold Qeq in E. simpl in E. lia.
Qed.

Lemma index_out_of_range {A : Type} (l : list A) (i : nat) :
  length l <= i -> index l i = Raise IndexError.
Proof.
  intros H. unfold index. apply nth_error_None in H. rewrite H. reflexivity.
Qed.

(** The constructor of [Coherence] raises [ZeroDivisionError] for a matrix
    without rows.  Otherwise it succeeds, and the tables it stores have
    one entry per word ([pw]) and per pair of words ([pcoo]); [pcoo] is
    symmetric, its diagonal is [pw], and for all word ids
    [0 <= pcoo[i][j] <= pw[i] <= 1]. *)
Theorem marginals_are_consistent (X : csr) :
  (fst (csr_shape X) = 0 -> Coherence_init X = Raise ZeroDivisionError)
  /\ (fst (csr_shape X) <> 0 ->
      exists self,
        Coherence_init X = Ok self
        /\ length (pw self) = snd (csr_shape X)
        /\ length (pcoo self) = snd (csr_shape X)
        /\ forall i j, i < snd (csr_shape X) -> j < snd (csr_shape X) ->
             exists p p_i q_i,
               (row <- index (pcoo self) i ;; index row j) = Ok p
               /\ (row <- index (pcoo self) j ;; index row i) = Ok p
               /\ index (pw self) i = Ok p_i
               /\ (row <- index (pcoo self) i ;; index row i) = Ok q_i
               /\ q_i = p_i
               /\ (0 <= p)%Q /\ (p <= p_i)%Q /\ (p_i <= 1)%Q).
Proof.
  unfold Coherence_init, get_marginals. split.
  - intros E. rewrite E. reflexivity.
  - intros HD. destruct (Nat.eqb_spec (fst (csr_shape X)) 0) as [E|_];
      [contradiction|].
    eexists. split; [reflexivity|]. simpl.
    rewrite !length_map, !length_seq. split; [reflexivity|].
    split; [reflexivity|]. intros i j Hi Hj.
    exists (ratio (coo X i j) (fst (csr_shape X))),
           (ratio (nw X i) (fst (csr_shape X))),
           (ratio (nw X i) (fst (csr_shape X))).
    rewrite !index_map_seq by assumption. cbn [bind].
    rewrite !index_map_seq by assumption.
    rewrite (coo_sym X j i), coo_diag.
    repeat split.
    + apply ratio_nonneg.
    + apply ratio_le, coo_le_nw_l.
    + rewrite <- (ratio_diag (fst (csr_shape X)) HD).
      apply ratio_le, nw_le_D.
Qed.

Lemma marginals_are_consistent_witness :
  Coherence_init empty_csr = Raise ZeroDivisionError
  /\ exists self,
       Coherence_init
         (vectorised_documents (processed processor_1_0 corpus_dog_cat_fish))
       = Ok self
       /\ length (pw self) = 3.
Proof.
  split.
  - exact (proj1 (marginals_are_consistent empty_csr) eq_refl).
  - destruct (proj2 (marginals_are_consistent
                       (vectorised_documents
                          (processed processor_1_0 corpus_dog_cat_fish)))
                (fun E => O_S 1 (eq_sym E)))
      as [self [Hs [Hl _]]].
    exists self. split; [exact Hs | exact Hl].
Defined.

(** ** Symmetry and bounds of [get_npmi] *)

Lemma pcoo_real_sym (X : csr) (i j : nat) : pcoo_real X i j = pcoo_real X j i.
Proof. unfold pcoo_real. rewrite coo_sym. reflexivity. Qed.

Lemma npmi_formula_sym (p p_i p_j : R) :
  npmi_formula p p_i p_j = npmi_formula p p_j p_i.
Proof. unfold npmi_formula, np_mul. rewrite Rmult_comm. reflexivity. Qed.

Lemma get_npmi_out_of_range (X : csr) (self : Coherence) (i j : nat) :
  Coherence_init X = Ok self ->
  snd (csr_shape X) <= i \/ snd (csr_shape X) <= j ->
  get_npmi self i j = Raise IndexError.
Proof.
  intros Hinit Hout. apply Coherence_init_Ok in Hinit as [_ [_ Hpcoo]].
  unfold get_npmi. rewrite Hpcoo.
  destruct (Nat.lt_ge_cases i (snd (csr_shape X))) as [Hi|Hi].
  - rewrite index_map_seq by assumption. cbn [bind].
    rewrite index_out_of_range; [reflexivity|].
    rewrite length_map, length_seq. lia.
  - rewrite index_out_of_range; [reflexivity|].
    rewrite length_map, length_seq. exact Hi.
Qed.

(** [get_npmi] is symmetric in its two word ids, whether it returns a
    number, the sentinel, a non-finite value or raises. *)
Theorem npmi_is_symmetric (X : csr) (self : Coherence) (i j : nat) :
  Coherence_init X = Ok self ->
  get_npmi self i j = get_npmi self j i.
Proof.
  intros Hinit.
  destruct (Nat.lt_ge_cases i (snd (csr_shape X))) as [Hi|Hi];
    destruct (Nat.lt_ge_cases j (snd (csr_shape X))) as [Hj|Hj].
  - rewrite (get_npmi_eq X self i j), (get_npmi_eq X self j i) by assumption.
    rewrite (coo_sym X j i), (pcoo_real_sym X j i).
    rewrite (npmi_formula_sym _ (pw_real X j)). reflexivity.
  - rewrite !(get_npmi_out_of_range X) by auto. reflexivity.
  - rewrite !(get_npmi_out_of_range X) by auto. reflexivity.
  - rewrite !(get_npmi_out_of_range X) by auto. reflexivity.
Qed.

Lemma npmi_is_symmetric_witness :
  let X := vectorised_documents (processed processor_1_0 corpus_dog_cat_fish) in
  exists self,
    Coherence_init X = Ok self /\ get_npmi self 0 1 = get_npmi self 1 0.
Proof.
  intros X. eexists. split; [vm_compute; reflexivity|].
  apply (npmi_is_symmetric X). reflexivity.
Defined.

(** [get_npmi] raises [IndexError] when one of the word ids is not below
    the number of columns of the count matrix. *)
Theorem npmi_of_unknown_word_raises (X : csr) (self : Coherence) (i j : nat) :
  Coherence_init X = Ok self ->
  snd (csr_shape X) <= i \/ snd (csr_shape X) <= j ->
  get_npmi self i j = Raise IndexError.
Proof. apply get_npmi_out_of_range. Qed.

Lemma npmi_of_unknown_word_raises_witness :
  let X := vectorised_documents (processed processor_1_0 corpus_dog_cat_fish) in
  exists self,
    Coherence_init X = Ok self /\ get_npmi self 0 3 = Raise IndexError.
Proof.
  intros X. eexists. split; [vm_compute; reflexivity|].
  apply (npmi_of_unknown_word_raises X); [reflexivity|].
  right. apply le_n.
Defined.



(** ** Topic coherence as a mean over pairs *)

Lemma index_app_r {A : Type} (l1 l2 : list A) (a : A) :
  index (l1 ++ a :: l2) (length l1) = Ok a.
Proof.
  unfold index. rewrite nth_error_app2, Nat.sub_diag by lia. reflexivity.
Qed.

Lemma inner_loop (self : Coherence) (ws l1 l2 : list nat) (i a : nat)
    (acc : list npfloat) :
  ws = l1 ++ l2 -> index ws i = Ok a ->
  foldM (fun scores j =>
           ix <- index ws i ;;
           jx <- index ws j ;;
           s <- get_npmi self ix jx ;;
           Ok (scores ++ [s]))
        (seq (length l1) (length l2)) acc
  = (xs <- mapM (get_npmi self a) l2 ;; Ok (acc ++ xs)).
Proof.
  intros Hws Hi. rewrite Hi. cbn [bind]. revert l1 acc Hws.
  induction l2 as [|b l2 IH]; intros l1 acc Hws.
  - simpl. rewrite app_nil_r. reflexivity.
  - assert (Hb : index ws (length l1) = Ok b)
      by (rewrite Hws; apply index_app_r).
    cbn [length seq foldM mapM]. rewrite Hb. cbn [bind].
    destruct (get_npmi self a b) as [s|e]; cbn [bind]; [|reflexivity].
    replace (S (length l1)) with (length (l1 ++ [b]))
      by (rewrite length_app; simpl; lia).
    rewrite IH by (rewrite <- app_assoc; exact Hws).
    destruct (mapM (get_npmi self a) l2) as [xs|e]; cbn [bind]; [|reflexivity].
    rewrite <- app_assoc. reflexivity.
Qed.

Lemma mapM_app {A B : Type} (f : A -> result B) (l1 l2 : list A) :
  mapM f (l1 ++ l2)
  = (xs <- mapM f l1 ;; ys <- mapM f l2 ;; Ok (xs ++ ys)).
Proof.
  induction l1 as [|a l1 IH]; simpl.
  - destruct (mapM f l2); reflexivity.
  - destruct (f a) as [b|e]; simpl; [|reflexivity].
    rewrite IH. destruct (mapM f l1) as [xs|e]; simpl; [|reflexivity].
    destruct (mapM f l2); reflexivity.
Qed.

Lemma mapM_map {A B C : Type} (f : B -> result C) (g : A -> B) (l : list A) :
  mapM f (map g l) = mapM (fun a => f (g a)) l.
Proof.
  induction l as [|a l IH]; simpl; [reflexivity|]. rewrite IH. reflexivity.
Qed.

Lemma outer_loop (self : Coherence) (ws pre suf : list nat)
    (acc : list npfloat) :
  ws = pre ++ suf ->
  foldM (fun scores i =>
           foldM (fun scores j =>
                    ix <- index ws i ;;
                    jx <- index ws j ;;
                    s <- get_npmi self ix jx ;;
                    Ok (scores ++ [s]))
                 (seq (i + 1) (length ws - (i + 1))) scores)
        (seq (length pre) (length suf - 1)) acc
  = (xs <- mapM (fun ab => get_npmi self (fst ab) (snd ab)) (pairs suf) ;;
     Ok (acc ++ xs)).
Proof.
  revert pre acc. induction suf as [|a suf IH]; intros pre acc Hws.
  - simpl. rewrite app_nil_r. reflexivity.
  - destruct suf as [|b suf].
    + simpl. rewrite app_nil_r. reflexivity.
    + replace (length (a :: b :: suf) - 1) with (S (length (b :: suf) - 1))
        by (simpl; lia).
      cbn [seq foldM].
      replace (length pre + 1) with (length (pre ++ [a]))
        by (rewrite length_app; reflexivity).
      replace (length ws - length (pre ++ [a])) with (length (b :: suf))
        by (rewrite Hws, !length_app; simpl; lia).
      rewrite (inner_loop self ws (pre ++ [a]) (b :: suf) (length pre) a)
        by (first [ rewrite <- app_assoc; exact Hws
                  | rewrite Hws; apply index_app_r ]).
      change (pairs (a :: b :: suf))
        with (map (pair a) (b :: suf) ++ pairs (b :: suf)).
      rewrite mapM_app, mapM_map. cbn [fst snd].
      change (fun b0 => get_npmi self a b0) with (get_npmi self a).
      destruct (mapM (get_npmi self a) (b :: suf)) as [xs|e]; cbn [bind];
        [|reflexivity].
      replace (S (length pre)) with (length (pre ++ [a]))
        by (rewrite length_app; simpl; lia).
      rewrite IH by (rewrite <- app_assoc; exact Hws). clear IH.
      destruct (mapM _ (pairs (b :: suf))) as [ys|e]; cbn [bind];
        [|reflexivity].
      rewrite app_assoc. reflexivity.
Qed.

Lemma length_pairs {A : Type} (l : list A) :
  2 * length (pairs l) = length l * (length l - 1).
Proof.
  induction l as [|a l IH]; simpl; [reflexivity|].
  rewrite length_app, length_map, Nat.sub_0_r.
  destruct l as [|b l]; simpl in *; nia.
Qed.

Lemma get_topic_coherence_pairs (self : Coherence) (word_indexes : list nat) :
  get_topic_coherence self word_indexes
  = (scores <- mapM (fun ab => get_npmi self (fst ab) (snd ab))
                 (pairs word_indexes) ;;
     Ok (np_mean scores)).
Proof.
  unfold get_topic_coherence. cbv zeta.
  pose proof (outer_loop self word_indexes [] word_indexes [] eq_refl) as H.
  cbn [length app] in H. rewrite H.
  destruct (mapM _ (pairs word_indexes)); reflexivity.
Qed.

(** [get_topic_coherence] evaluates [get_npmi] on the pairs
    [(word_indexes[i], word_indexes[j])], [i < j], row by row; there are
    [N (N - 1) / 2] of them; it returns the mean of the values, or raises
    what the first failing [get_npmi] raises. *)
Theorem topic_coherence_is_the_mean_over_pairs (self : Coherence)
    (word_indexes : list nat) :
  get_topic_coherence self word_indexes
  = (scores <- mapM (fun ab => get_npmi self (fst ab) (snd ab))
                 (pairs word_indexes) ;;
     Ok (np_mean scores))
  /\ 2 * length (pairs word_indexes)
     = length word_indexes * (length word_indexes - 1).
Proof. split; [apply get_topic_coherence_pairs | apply length_pairs]. Qed.

Lemma pairs_of_three :
  pairs [7; 8; 9] = [(7, 8); (7, 9); (8, 9)].
Proof. reflexivity. Qed.

(** ** Range of the topic coherence *)

Lemma mapM_Forall {A B : Type} (f : A -> result B) (P : B -> Prop)
    (l : list A) :
  (forall x, In x l -> exists y, f x = Ok y /\ P y) ->
  exists ys, mapM f l = Ok ys /\ Forall P ys /\ length ys = length l.
Proof.
  induction l as [|a l IH]; intros H.
  - exists []. simpl. auto.
  - destruct (H a (or_introl eq_refl)) as [y [Hy Py]].
    destruct IH as [ys [Hys [Pys Hlen]]];
      [intros x Hx; apply H; right; exact Hx|].
    exists (y :: ys). simpl. rewrite Hy, Hys. simpl. auto.
Qed.

Lemma np_sum_in_range (l : list npfloat) :
  Forall in_unit_range l ->
  exists s, np_sum l = Finite s
            /\ (- INR (length l) <= s <= INR (length l))%R.
Proof.
  induction 1 as [|x l [v [-> Hv]] _ [s [Hs Hb]]].
  - exists 0%R. simpl. split; [reflexivity | lra].
  - exists (v + s)%R. cbn [np_sum]. rewrite Hs. split; [reflexivity|].
    change (length (Finite v :: l)) with (S (length l)). rewrite S_INR. lra.
Qed.

Lemma np_mean_in_range (l : list npfloat) :
  l <> [] -> Forall in_unit_range l -> in_unit_range (np_mean l).
Proof.
  intros Hne Hall. destruct (np_sum_in_range l Hall) as [s [Hs Hb]].
  assert (Hn : (0 < INR (length l))%R).
  { apply lt_0_INR. destruct l; [congruence | simpl; lia]. }
  unfold np_mean. rewrite Hs. unfold np_div.
  destruct (Req_EM_T (INR (length l)) 0) as [E|_]; [lra|].
  exists (s / INR (length l))%R. split; [reflexivity|].
  assert (Hinv : (0 < / INR (length l))%R) by (apply Rinv_0_lt_compat, Hn).
  assert (Hone : (INR (length l) * / INR (length l) = 1)%R)
    by (apply Rinv_r; lra).
  unfold Rdiv. split; nra.
Qed.

Lemma In_pairs {A : Type} (l : list A) (a b : A) :
  In (a, b) (pairs l) -> In a l /\ In b l.
Proof.
  induction l as [|x l IH]; simpl; [tauto|].
  intros H. apply in_app_or in H as [H|H].
  - apply in_map_iff in H as [y [[= <- <-] Hy]]. auto.
  - apply IH in H. tauto.
Qed.

Lemma get_topic_coherence_range (X : csr) (self : Coherence)
    (word_indexes : list nat) :
  Coherence_init X = Ok self ->
  2 <= length word_indexes ->
  (forall a, In a word_indexes -> a < snd (csr_shape X)) ->
  (forall a b, In (a, b) (pairs word_indexes) ->
               coo X a b < fst (csr_shape X)) ->
  exists s, get_topic_coherence self word_indexes = Ok s /\ in_unit_range s.
Proof.
  intros Hinit Hlen Hrange Hco. rewrite get_topic_coherence_pairs.
  destruct (mapM_Forall (fun ab => get_npmi self (fst ab) (snd ab))
              in_unit_range (pairs word_indexes)) as [ys [Hys [Pys Hl]]].
  - intros [a b] Hab. simpl. pose proof (In_pairs _ _ _ Hab) as [Ha Hb].
    destruct (npmi_range_or_not_finite X self a b Hinit
                (Hrange a Ha) (Hrange b Hb)) as [[E _]|[_ [v [Hv Hr]]]].
    + specialize (Hco a b Hab). lia.
    + exists (Finite v). split; [exact Hv|]. exists v. auto.
  - rewrite Hys. simpl. eexists. split; [reflexivity|].
    apply np_mean_in_range; [|exact Pys].
    intros E. rewrite E in Hl. simpl in Hl.
    pose proof (length_pairs word_indexes) as Hp. rewrite <- Hl in Hp.
    simpl in Hp. nia.
Qed.

(** For at least two word ids, all in range, no two of which (as a pair
    of the list) occur together in every document, [get_topic_coherence]
    raises nothing and returns a real number of [[-1, 1]]. *)
Theorem topic_coherence_in_range (X : csr) (self : Coherence)
    (word_indexes : list nat) :
  Coherence_init X = Ok self ->
  2 <= length word_indexes ->
  (forall a, In a word_indexes -> a < snd (csr_shape X)) ->
  (forall a b, In (a, b) (pairs word_indexes) ->
               coo X a b < fst (csr_shape X)) ->
  exists v, get_topic_coherence self word_indexes = Ok (Finite v)
            /\ (-1 <= v <= 1)%R.
Proof.
  intros Hinit Hlen Hrange Hco.
  destruct (get_topic_coherence_range X self word_indexes Hinit Hlen Hrange Hco)
    as [s [Hs [v [-> Hv]]]].
  exists v. auto.
Qed.

Lemma topic_coherence_in_range_witness :
  let X := vectorised_documents (processed processor_1_0 corpus_dog_cat_fish) in
  exists self v,
    Coherence_init X = Ok self
    /\ get_topic_coherence self [0; 1; 2] = Ok (Finite v)
    /\ (-1 <= v <= 1)%R.
Proof.
  intros X. eexists.
  assert (H : forall a b, In (a, b) (pairs [0; 1; 2]) ->
                          coo X a b < fst (csr_shape X)).
  { intros a b Hab. simpl in Hab.
    destruct Hab as [[= <- <-]|[[= <- <-]|[[= <- <-]|[]]]];
      apply Nat.ltb_lt; reflexivity. }
  assert (Hr : forall a, In a [0; 1; 2] -> a < snd (csr_shape X)).
  { intros a Ha. simpl in Ha.
    destruct Ha as [<-|[<-|[<-|[]]]]; apply Nat.ltb_lt; reflexivity. }
  destruct (topic_coherence_in_range X _ [0; 1; 2] eq_refl
              (le_S _ _ (le_n 2)) Hr H) as [v [Hv Hb]].
  exists v. split; [reflexivity|]. split; [exact Hv | exact Hb].
Defined.

(** ** Unknown word ids in a topic *)

Lemma mapM_raise {A B : Type} (f : A -> result B) (e : exn) (l : list A) :
  (forall x, In x l -> (exists y, f x = Ok y) \/ f x = Raise e) ->
  (exists x, In x l /\ f x = Raise e) ->
  mapM f l = Raise e.
Proof.
  induction l as [|a l IH]; intros Hall [x [Hx Hfx]]; [destruct Hx|].
  simpl. destruct (Hall a (or_introl eq_refl)) as [[y Hy]|Ha].
  - rewrite Hy. simpl. rewrite IH; [reflexivity | |].
    + intros z Hz. apply Hall. right. exact Hz.
    + destruct Hx as [->|Hx]; [congruence|]. exists x. auto.
  - rewrite Ha. reflexivity.
Qed.

Lemma get_npmi_Ok_or_IndexError (X : csr) (self : Coherence) (i j : nat) :
  Coherence_init X = Ok self ->
  (exists y, get_npmi self i j = Ok y) \/ get_npmi self i j = Raise IndexError.
Proof.
  intros Hinit.
  destruct (Nat.lt_ge_cases i (snd (csr_shape X))) as [Hi|Hi];
    [destruct (Nat.lt_ge_cases j (snd (csr_shape X))) as [Hj|Hj]|].
  - left. rewrite (get_npmi_eq X self i j) by assumption. eexists. reflexivity.
  - right. apply (get_npmi_out_of_range X); auto.
  - right. apply (get_npmi_out_of_range X); auto.
Qed.

Lemma In_pairs_split {A : Type} (l1 l2 : list A) (a b : A) :
  In b l2 -> In (a, b) (pairs (l1 ++ a :: l2)).
Proof.
  intros Hb. induction l1 as [|x l1 IH]; simpl.
  - apply in_or_app. left. apply in_map, Hb.
  - apply in_or_app. right. exact IH.
Qed.

Lemma In_some_pair {A : Type} (l : list A) (a : A) :
  In a l -> 2 <= length l ->
  exists b, In (a, b) (pairs l) \/ In (b, a) (pairs l).
Proof.
  intros Ha Hlen. apply in_split in Ha as [l1 [l2 ->]].
  destruct l2 as [|b l2].
  - destruct l1 as [|b l1]; [simpl in Hlen; lia|].
    exists b. right. apply (In_pairs_split [] (l1 ++ [a]) b a).
    apply in_or_app. right. left. reflexivity.
  - exists b. left. apply In_pairs_split. left. reflexivity.
Qed.

(** [get_topic_coherence] of at least two word ids raises [IndexError]
    when one of them is not below the number of columns of the count
    matrix. *)
Theorem topic_coherence_of_unknown_word_raises (X : csr) (self : Coherence)
    (word_indexes : list nat) :
  Coherence_init X = Ok self ->
  2 <= length word_indexes ->
  (exists a, In a word_indexes /\ snd (csr_shape X) <= a) ->
  get_topic_coherence self word_indexes = Raise IndexError.
Proof.
  intros Hinit Hlen [a [Ha Hout]]. rewrite get_topic_coherence_pairs.
  rewrite (mapM_raise _ IndexError); [reflexivity | |].
  - intros [x y] _. apply (get_npmi_Ok_or_IndexError X). exact Hinit.
  - destruct (In_some_pair _ a Ha Hlen) as [b [Hab|Hba]].
    + exists (a, b). split; [exact Hab|].
      apply (get_npmi_out_of_range X); auto.
    + exists (b, a). split; [exact Hba|].
      apply (get_npmi_out_of_range X); auto.
Qed.

Lemma topic_coherence_of_unknown_word_raises_witness :
  let X := vectorised_documents (processed processor_1_0 corpus_dog_cat_fish) in
  exists self,
    Coherence_init X = Ok self
    /\ get_topic_coherence self [0; 5] = Raise IndexError.
Proof.
  intros X. eexists. split; [vm_compute; reflexivity|].
  apply (topic_coherence_of_unknown_word_raises X); [reflexivity | apply le_n |].
  exists 5. split; [right; left; reflexivity|].
  apply Nat.leb_le. reflexivity.
Defined.

(** ** Coherence of a model *)

(** [model_coherence] returns one score per topic, in the order of the
    topics; when every topic has at least two word ids, all in range, no
    two of them occurring together in every document, it raises nothing
    and every score is a real number of [[-1, 1]]. *)
Theorem model_coherence_in_range (X : csr) (self : Coherence)
    (list_word_indexes : list (list nat)) :
  Coherence_init X = Ok self ->
  (forall word_indexes, In word_indexes list_word_indexes ->
     2 <= length word_indexes
     /\ (forall a, In a word_indexes -> a < snd (csr_shape X))
     /\ (forall a b, In (a, b) (pairs word_indexes) ->
                     coo X a b < fst (csr_shape X))) ->
  exists scores,
    model_coherence self list_word_indexes = Ok scores
    /\ length scores = length list_word_indexes
    /\ Forall2 (fun word_indexes s =>
                  get_topic_coherence self word_indexes = Ok s)
         list_word_indexes scores
    /\ Forall in_unit_range scores.
Proof.
  intros Hinit. unfold model_coherence.
  induction list_word_indexes as [|ws l IH]; intros H.
  - exists []. simpl. repeat split; constructor.
  - destruct (H ws (or_introl eq_refl)) as [Hlen [Hr Hco]].
    destruct (get_topic_coherence_range X self ws Hinit Hlen Hr Hco)
      as [s [Hs Ps]].
    destruct IH as [scores [Hsc [Hl [H2 Pall]]]];
      [intros ws' Hws'; apply H; right; exact Hws'|].
    exists (s :: scores). simpl. rewrite Hs, Hsc. simpl.
    repeat split; [congruence | constructor; assumption
                  | constructor; assumption].
Qed.

Lemma model_coherence_in_range_witness :
  let X := vectorised_documents (processed processor_1_0 corpus_dog_cat_fish) in
  exists self scores,
    Coherence_init X = Ok self
    /\ model_coherence self [[0; 1]; [1; 2]] = Ok scores
    /\ length scores = 2.
Proof.
  intros X. eexists.
  assert (H : forall word_indexes, In word_indexes [[0; 1]; [1; 2]] ->
     2 <= length word_indexes
     /\ (forall a, In a word_indexes -> a < snd (csr_shape X))
     /\ (forall a b, In (a, b) (pairs word_indexes) ->
                     coo X a b < fst (csr_shape X))).
  { intros ws Hws. simpl in Hws. destruct Hws as [<-|[<-|[]]].
    - split; [apply le_n|]. split.
      + intros a Ha. simpl in Ha.
        destruct Ha as [<-|[<-|[]]]; apply Nat.ltb_lt; reflexivity.
      + intros a b Hab. simpl in Hab.
        destruct Hab as [[= <- <-]|[]]. apply Nat.ltb_lt; reflexivity.
    - split; [apply le_n|]. split.
      + intros a Ha. simpl in Ha.
        destruct Ha as [<-|[<-|[]]]; apply Nat.ltb_lt; reflexivity.
      + intros a b Hab. simpl in Hab.
        destruct Hab as [[= <- <-]|[]]. apply Nat.ltb_lt; reflexivity. }
  destruct (model_coherence_in_range X _ [[0; 1]; [1; 2]] eq_refl H)
    as [scores [Hs [Hl _]]].
  exists scores. split; [reflexivity|]. split; [exact Hs | exact Hl].
Defined.

(** * Further properties of [Similarity] *)

(** ** One topic against the others *)

Lemma length_delete_nth {A : Type} (l : list A) (n : nat) :
  n < length l -> length (delete_nth l n) = length l - 1.
Proof.
  revert n. induction l as [|a l IH]; intros n H; simpl in *; [lia|].
  destruct n as [|n]; [lia|]. simpl. rewrite IH by lia. lia.
Qed.

Lemma get_similarity_eq (a : ndarray) (k : nat) (row : list R) :
  well_formed a ->
  nth_error (nd_rows a) k = Some row ->
  2 <= fst (nd_shape a) -> 1 <= snd (nd_shape a) ->
  get_similarity (Similarity_init a) k
  = Ok [map (cosine row) (delete_nth (nd_rows a) k)].
Proof.
  unfold well_formed. intros Hwf Hk HK HW.
  assert (Hlt : k < fst (nd_shape a)).
  { rewrite <- Hwf. apply nth_error_Some. congruence. }
  unfold get_similarity, Similarity_init, np_delete, index. simpl.
  apply Nat.ltb_lt in Hlt. rewrite Hlt, Hk. simpl.
  unfold cosine_similarity. simpl.
  destruct (snd (nd_shape a)) as [|w]; [lia|].
  destruct (fst (nd_shape a)) as [|[|n]]; try lia.
  simpl. rewrite Nat.eqb_refl. reflexivity.
Qed.

(** For a topic-word matrix with at least two topics and one word,
    [get_similarity] of a topic returns one row with the cosine
    similarities of the topic's row to the rows of all the other topics,
    in their order: [K - 1] values, and none of the topic with itself.
    For an index that is no topic it raises [IndexError]. *)
Theorem similarity_leaves_the_topic_itself_out (a : ndarray) (k : nat) :
  well_formed a ->
  2 <= fst (nd_shape a) -> 1 <= snd (nd_shape a) ->
  (forall row, nth_error (nd_rows a) k = Some row ->
     exists scores,
       get_similarity (Similarity_init a) k = Ok [scores]
       /\ scores = map (cosine row)
                     (firstn k (nd_rows a) ++ skipn (S k) (nd_rows a))
       /\ length scores = fst (nd_shape a) - 1)
  /\ (fst (nd_shape a) <= k ->
      get_similarity (Similarity_init a) k = Raise IndexError).
Proof.
  intros Hwf HK HW. split.
  - intros row Hk. eexists. split; [apply get_similarity_eq; eassumption|].
    assert (Hlt : k < length (nd_rows a)) by (apply nth_error_Some; congruence).
    assert (E : delete_nth (nd_rows a) k
                = firstn k (nd_rows a) ++ skipn (S k) (nd_rows a)).
    { clear. revert k. induction (nd_rows a) as [|x l IH]; intros k.
      - destruct k; reflexivity.
      - destruct k as [|k]; simpl; [reflexivity|]. rewrite IH. reflexivity. }
    rewrite <- E. split; [reflexivity|].
    rewrite length_map, length_delete_nth by assumption.
    unfold well_formed in Hwf. lia.
  - intros Hout. unfold get_similarity, Similarity_init. simpl.
    apply Nat.ltb_ge in Hout. rewrite Hout. reflexivity.
Qed.

Lemma similarity_leaves_the_topic_itself_out_witness :
  get_similarity
    (Similarity_init (mk_ndarray (2, 1) [[1%R]; [2%R]])) 2
  = Raise IndexError.
Proof.
  exact (proj2 (similarity_leaves_the_topic_itself_out
                  (mk_ndarray (2, 1) [[1%R]; [2%R]]) 2
                  eq_refl (le_n 2) (le_n 1)) (le_n 2)).
Defined.

(** ** Range of the cosine *)

Lemma dot_cons (a b : R) (u v : list R) :
  dot (a :: u) (b :: v) = (a * b + dot u v)%R.
Proof. reflexivity. Qed.

Lemma dot_nil_r (u : list R) : dot u [] = 0%R.
Proof. unfold dot. rewrite combine_nil. reflexivity. Qed.

Lemma dot_comm (u v : list R) : dot u v = dot v u.
Proof.
  revert v. induction u as [|a u IH]; intros v.
  - rewrite dot_nil_r. reflexivity.
  - destruct v as [|b v]; [rewrite dot_nil_r; reflexivity|].
    rewrite !dot_cons, IH. lra.
Qed.

Lemma dot_self_nonneg (u : list R) : (0 <= dot u u)%R.
Proof.
  induction u as [|a u IH]; [unfold dot; simpl; lra|].
  rewrite dot_cons. nra.
Qed.

Lemma dot_bound (u v : list R) :
  (- (dot u u + dot v v) <= 2 * dot u v <= dot u u + dot v v)%R.
Proof.
  revert v. induction u as [|a u IH]; intros v.
  - pose proof (dot_self_nonneg v).
    change (dot [] []) with 0%R. change (dot [] v) with 0%R. lra.
  - destruct v as [|b v].
    + rewrite !dot_nil_r. pose proof (dot_self_nonneg (a :: u)) as H.
      set (d := dot (a :: u) (a :: u)) in *. lra.
    + rewrite !dot_cons. specialize (IH v).
      pose proof (Rle_0_sqr (a - b)) as H1. pose proof (Rle_0_sqr (a + b)) as H2.
      unfold Rsqr in H1, H2.
      set (duu := dot u u) in *. set (dvv := dot v v) in *.
      set (duv := dot u v) in *. nra.
Qed.

Lemma dot_scale (n : R) (x : list R) :
  dot (map (fun v => (v / n)%R) x) (map (fun v => (v / n)%R) x)
  = (dot x x * (/ n * / n))%R.
Proof.
  induction x as [|a x IH]; [unfold dot; simpl; lra|].
  cbn [map]. rewrite !dot_cons, IH. unfold Rdiv. lra.
Qed.

Lemma dot_normalize_le_1 (x : list R) :
  (dot (normalize x) (normalize x) <= 1)%R.
Proof.
  unfold normalize. pose proof (dot_self_nonneg x) as Hpos.
  destruct (Req_EM_T (sqrt (dot x x)) 0) as [E|N]; rewrite dot_scale.
  - apply sqrt_eq_0 in E; [|assumption]. rewrite E. lra.
  - pose proof (sqrt_sqrt (dot x x) Hpos) as Hs.
    set (n := sqrt (dot x x)) in *. rewrite <- Hs.
    replace (n * n * (/ n * / n))%R with 1%R by (field; assumption). lra.
Qed.

Lemma cosine_range (x y : list R) : (-1 <= cosine x y <= 1)%R.
Proof.
  unfold cosine.
  pose proof (dot_bound (normalize x) (normalize y)).
  pose proof (dot_normalize_le_1 x). pose proof (dot_normalize_le_1 y).
  lra.
Qed.

Lemma normalize_nonneg (x : list R) :
  Forall (fun v => 0 <= v)%R x -> Forall (fun v => 0 <= v)%R (normalize x).
Proof.
  intros H. unfold normalize. apply Forall_map.
  assert (Hn : (0 < (if Req_EM_T (sqrt (dot x x)) 0 then 1
                     else sqrt (dot x x)))%R).
  { destruct (Req_EM_T (sqrt (dot x x)) 0) as [E|N]; [lra|].
    pose proof (sqrt_pos (dot x x)). lra. }
  eapply Forall_impl; [|exact H]. intros v Hv. simpl in Hv.
  apply Rle_mult_inv_pos; assumption.
Qed.

Lemma dot_nonneg (u v : list R) :
  Forall (fun a => 0 <= a)%R u -> Forall (fun a => 0 <= a)%R v ->
  (0 <= dot u v)%R.
Proof.
  intros Hu. revert v. induction Hu as [|a u Ha Hu IH]; intros v Hv.
  - unfold dot. simpl. lra.
  - destruct Hv as [|b v Hb Hv]; [rewrite dot_nil_r; lra|].
    rewrite dot_cons. specialize (IH v Hv). nra.
Qed.

Lemma cosine_nonneg (x y : list R) :
  Forall (fun v => 0 <= v)%R x -> Forall (fun v => 0 <= v)%R y ->
  (0 <= cosine x y)%R.
Proof.
  intros Hx Hy. apply dot_nonneg; apply normalize_nonneg; assumption.
Qed.

(** ** Scores of a model *)

Lemma foldM_ext {A S : Type} (f g : S -> A -> result S) (l : list A) (s : S) :
  (forall s a, In a l -> f s a = g s a) -> foldM f l s = foldM g l s.
Proof.
  revert s. induction l as [|a l IH]; intros s H; simpl; [reflexivity|].
  rewrite (H s a (or_introl eq_refl)). destruct (g s a); simpl; [|reflexivity].
  apply IH. intros s' b Hb. apply H. right. exact Hb.
Qed.

Lemma foldM_snoc {A B : Type} (g : A -> result B) (l : list A) (acc : list B) :
  foldM (fun acc a => x <- g a ;; Ok (acc ++ [x])) l acc
  = (xs <- mapM g l ;; Ok (acc ++ xs)).
Proof.
  revert acc. induction l as [|a l IH]; intros acc; simpl.
  - rewrite app_nil_r. reflexivity.
  - destruct (g a) as [x|e]; simpl; [|reflexivity].
    rewrite IH. destruct (mapM g l); simpl; [|reflexivity].
    rewrite <- app_assoc. reflexivity.
Qed.

Lemma model_similarity_mapM (self : Similarity) (type : option string) :
  model_similarity self type = mapM (topic_score self type) (seq 0 (K self)).
Proof.
  unfold model_similarity.
  rewrite (foldM_ext _ (fun acc k => x <- topic_score self type k ;;
                                     Ok (acc ++ [x]))).
  - rewrite foldM_snoc. destruct (mapM _ _); reflexivity.
  - intros acc k _. unfold topic_score.
    destruct (get_similarity self k) as [scores|e]; simpl; [|reflexivity].
    destruct type as [s|]; [|reflexivity].
    repeat match goal with
           | |- context [match ?x with _ => _ end] =>
               is_var x; destruct x; try reflexivity
           end.
Qed.

Lemma topic_score_cases (self : Similarity) (type : option string) (k : nat)
    (scores : list (list R)) :
  get_similarity self k = Ok scores ->
  topic_score self type k = np_max (map Finite (concat scores))
  \/ topic_score self type k = Ok (np_mean (map Finite (concat scores))).
Proof.
  intros H. unfold topic_score. rewrite H. simpl.
  destruct type as [s|]; [|right; reflexivity].
  repeat match goal with
         | |- context [match ?x with _ => _ end] =>
             is_var x; destruct x; try (right; reflexivity)
         end.
  left. reflexivity.
Qed.

Lemma np_max_Forall (Q : R -> Prop) (l : list npfloat) :
  l <> [] -> Forall (fun s => exists v, s = Finite v /\ Q v) l ->
  exists v, np_max l = Ok (Finite v) /\ Q v.
Proof.
  intros Hne H. induction H as [|s l [v [-> Hv]] Hl IH]; [congruence|].
  destruct l as [|s' l].
  - exists v. simpl. auto.
  - destruct IH as [m [Hm Qm]]; [discriminate|].
    exists (Rmax v m). split.
    + change (np_max (Finite v :: s' :: l))
        with (m0 <- np_max (s' :: l) ;;
              Ok match Finite v, m0 with
                 | Finite x, Finite y => Finite (Rmax x y)
                 | _, _ => NonFinite
                 end).
      rewrite Hm. reflexivity.
    + apply Rmax_case; assumption.
Qed.

Lemma np_mean_nonneg (l : list npfloat) :
  l <> [] -> Forall is_nonneg l -> is_nonneg (np_mean l).
Proof.
  intros Hne Hall.
  assert (Hs : exists s, np_sum l = Finite s /\ (0 <= s)%R).
  { clear Hne. induction Hall as [|x l [v [-> Hv]] _ [s [Hs Hb]]].
    - exists 0%R. simpl. split; [reflexivity | lra].
    - exists (v + s)%R. cbn [np_sum]. rewrite Hs. split; [reflexivity | lra]. }
  destruct Hs as [s [Hs Hb]].
  assert (Hn : (0 < INR (length l))%R).
  { apply lt_0_INR. destruct l; [congruence | simpl; lia]. }
  unfold np_mean. rewrite Hs. unfold np_div.
  destruct (Req_EM_T (INR (length l)) 0) as [E|_]; [lra|].
  exists (s / INR (length l))%R. split; [reflexivity|].
  apply Rle_mult_inv_pos; assumption.
Qed.

Lemma topic_score_range (a : ndarray) (type : option string) (k : nat) :
  well_formed a ->
  2 <= fst (nd_shape a) -> 1 <= snd (nd_shape a) ->
  k < fst (nd_shape a) ->
  exists s,
    topic_score (Similarity_init a) type k = Ok s
    /\ in_unit_range s
    /\ ((forall row, In row (nd_rows a) -> Forall (fun v => 0 <= v)%R row) ->
        is_nonneg s).
Proof.
  intros Hwf HK HW Hk. pose proof Hwf as Hlen. unfold well_formed in Hlen.
  destruct (nth_error (nd_rows a) k) as [row|] eqn:Erow;
    [|apply nth_error_None in Erow; lia].
  pose proof (get_similarity_eq a k row Hwf Erow HK HW) as Hsim.
  set (others := delete_nth (nd_rows a) k) in *.
  assert (Hothers : others <> []).
  { intros E. assert (Hl : length others = fst (nd_shape a) - 1).
    { unfold others. rewrite length_delete_nth; lia. }
    rewrite E in Hl. simpl in Hl. lia. }
  assert (Hincl : forall y, In y others -> In y (nd_rows a)).
  { unfold others. clear. generalize k. induction (nd_rows a) as [|x l IH];
      intros n y; destruct n; simpl; auto.
    intros [->|H]; [auto | right; eapply IH; exact H]. }
  set (flat := map Finite (concat [map (cosine row) others])).
  assert (Hflat : flat <> []).
  { unfold flat. simpl. rewrite app_nil_r.
    destruct others; [congruence | discriminate]. }
  assert (Hunit : Forall in_unit_range flat).
  { unfold flat. simpl. rewrite app_nil_r. apply Forall_map, Forall_map.
    apply Forall_forall. intros y _. exists (cosine row y).
    split; [reflexivity | apply cosine_range]. }
  assert (Hnn : (forall r, In r (nd_rows a) -> Forall (fun v => 0 <= v)%R r) ->
                Forall is_nonneg flat).
  { intros Hpos. unfold flat. simpl. rewrite app_nil_r.
    apply Forall_map, Forall_map. apply Forall_forall. intros y Hy.
    exists (cosine row y). split; [reflexivity|].
    apply cosine_nonneg; apply Hpos; [eapply nth_error_In; eassumption|].
    apply Hincl, Hy. }
  destruct (topic_score_cases _ type k _ Hsim) as [E|E]; rewrite E; fold flat.
  - destruct (np_max_Forall (fun v => -1 <= v <= 1)%R flat Hflat Hunit)
      as [m [Hm Hr]].
    exists (Finite m). split; [exact Hm|]. split; [exists m; auto|].
    intros Hpos.
    destruct (np_max_Forall (fun v => 0 <= v)%R flat Hflat (Hnn Hpos))
      as [m' [Hm' Hr']].
    exists m'. split; [congruence | exact Hr'].
  - eexists. split; [reflexivity|]. split.
    + apply np_mean_in_range; assumption.
    + intros Hpos. apply np_mean_nonneg; auto.
Qed.

(** For a topic-word matrix with at least two topics and one word,
    [model_similarity] raises nothing and returns one score per topic;
    every score, mean or maximum, is a real number of [[-1, 1]], and is
    not negative when no entry of the matrix is. *)
Theorem model_similarity_scores_in_range (a : ndarray)
    (type : option string) :
  well_formed a ->
  2 <= fst (nd_shape a) -> 1 <= snd (nd_shape a) ->
  exists scores,
    model_similarity (Similarity_init a) type = Ok scores
    /\ length scores = fst (nd_shape a)
    /\ Forall in_unit_range scores
    /\ ((forall row, In row (nd_rows a) -> Forall (fun v => 0 <= v)%R row) ->
        Forall is_nonneg scores).
Proof.
  intros Hwf HK HW. rewrite model_similarity_mapM.
  destruct (mapM_Forall (topic_score (Similarity_init a) type)
              (fun s => in_unit_range s
                        /\ ((forall row, In row (nd_rows a) ->
                               Forall (fun v => 0 <= v)%R row) ->
                            is_nonneg s))
              (seq 0 (K (Similarity_init a)))) as [scores [Hs [Hall Hlen]]].
  - intros k Hk. apply in_seq in Hk. simpl in Hk.
    destruct (topic_score_range a type k Hwf HK HW ltac:(lia)) as [s [H1 H2]].
    exists s. auto.
  - exists scores. split; [exact Hs|]. rewrite Hlen, length_seq.
    split; [reflexivity|]. split.
    + eapply Forall_impl; [|exact Hall]. intros s [H _]. exact H.
    + intros Hpos. eapply Forall_impl; [|exact Hall].
      intros s [_ H]. apply H, Hpos.
Qed.

Lemma model_similarity_scores_in_range_witness :
  exists scores,
    model_similarity
      (Similarity_init (mk_ndarray (2, 2) [[1%R; 0%R]; [1%R; 1%R]])) None
    = Ok scores
    /\ length scores = 2.
Proof.
  destruct (model_similarity_scores_in_range
              (mk_ndarray (2, 2) [[1%R; 0%R]; [1%R; 1%R]]) None
              eq_refl (le_n 2) (le_S _ _ (le_n 1)))
    as [scores [Hs [Hl _]]].
  exists scores. split; [exact Hs | exact Hl].
Defined.

Lemma cosine_sym (x y : list R) : cosine x y = cosine y x.
Proof. unfold cosine. apply dot_comm. Qed.

(** With exactly two topics [model_similarity] gives both the same
    score. *)
Theorem two_topics_get_the_same_score (w : nat) (r0 r1 : list R)
    (type : option string) :
  1 <= w ->
  exists s,
    model_similarity (Similarity_init (mk_ndarray (2, w) [r0; r1])) type
    = Ok [s; s].
Proof.
  intros Hw. rewrite model_similarity_mapM.
  set (a := mk_ndarray (2, w) [r0; r1]).
  assert (H0 : get_similarity (Similarity_init a) 0 = Ok [[cosine r0 r1]])
    by (apply (get_similarity_eq a 0 r0); [reflexivity | reflexivity
                                           | apply le_n | exact Hw]).
  assert (H1 : get_similarity (Similarity_init a) 1 = Ok [[cosine r1 r0]])
    by (apply (get_similarity_eq a 1 r1); [reflexivity | reflexivity
                                           | apply le_n | exact Hw]).
  rewrite (cosine_sym r1 r0) in H1.
  change (seq 0 (K (Similarity_init a))) with [0; 1]. cbn [mapM].
  assert (E : topic_score (Similarity_init a) type 1
              = topic_score (Similarity_init a) type 0)
    by (unfold topic_score; rewrite H0, H1; reflexivity).
  rewrite E.
  destruct (topic_score_cases _ type 0 _ H0) as [E0|E0];
    rewrite E0; simpl; eexists; reflexivity.
Qed.

Lemma two_topics_get_the_same_score_witness :
  exists s,
    model_similarity
      (Similarity_init (mk_ndarray (2, 2) [[1%R; 0%R]; [1%R; 1%R]]))
      (Some "max"%string)
    = Ok [s; s].
Proof.
  exact (two_topics_get_the_same_score 2 [1%R; 0%R] [1%R; 1%R]
           (Some "max"%string) (le_S _ _ (le_n 1))).
Defined.

(** * Properties of [TextPreProcessor] *)

(** ** Characters *)

Ltac ascii_cases c :=
  destruct c as [[] [] [] [] [] [] [] []].

Lemma letter_not_space (c : ascii) :
  is_lower_letter c = true -> is_space c = false.
Proof. ascii_cases c; intros H; try discriminate H; reflexivity. Qed.

Lemma space_not_letter (c : ascii) :
  is_space c = true -> is_lower_letter c = false.
Proof.
  intros H. destruct (is_lower_letter c) eqn:E; [|reflexivity].
  apply letter_not_space in E. congruence.
Qed.

Lemma char_lower_idem (c : ascii) : char_lower (char_lower c) = char_lower c.
Proof. ascii_cases c; reflexivity. Qed.

Lemma char_lower_letter (c : ascii) :
  is_lower_letter c = true -> char_lower c = c.
Proof. ascii_cases c; intros H; try discriminate H; reflexivity. Qed.

(** ** The steps that do not change the tokens *)

Lemma str_split_space_runs (text : list ascii) :
  (forall cur, str_split cur (sub_space_runs false text) = str_split cur text)
  /\ str_split [] (sub_space_runs true text) = str_split [] text.
Proof.
  induction text as [|c text [IHf IHt]]; [split; reflexivity|]. split.
  - intros cur. cbn [sub_space_runs]. destruct (is_space c) eqn:Ec.
    + destruct text as [|c' text'].
      * simpl. rewrite Ec. reflexivity.
      * destruct (is_space c') eqn:Ec'.
        -- change (str_split cur (" "%char :: sub_space_runs true (c' :: text')))
             with (match cur with
                   | [] => str_split [] (sub_space_runs true (c' :: text'))
                   | _ => rev cur :: str_split [] (sub_space_runs true (c' :: text'))
                   end).
           rewrite IHt. cbn [str_split]. rewrite Ec. reflexivity.
        -- cbn [str_split]. rewrite Ec, !IHf. reflexivity.
    + cbn [str_split]. rewrite Ec. apply IHf.
  - cbn [sub_space_runs]. destruct (is_space c) eqn:Ec.
    + cbn [str_split]. rewrite Ec. exact IHt.
    + cbn [str_split]. rewrite Ec. apply IHf.
Qed.

Lemma str_split_trailing_spaces (cur a t : list ascii) :
  Forall (fun c => is_space c = true) t ->
  str_split cur (a ++ t) = str_split cur a.
Proof.
  intros Ht. revert cur. induction a as [|c a IH]; intros cur.
  - simpl. revert cur. induction Ht as [|c t Hc _ IHt]; intros cur;
      [reflexivity|].
    cbn [str_split]. rewrite Hc. destruct cur; rewrite IHt; reflexivity.
  - cbn [app str_split]. destruct (is_space c); [|apply IH].
    destruct cur; rewrite IH; reflexivity.
Qed.

Lemma drop_spaces_prefix (m : list ascii) :
  exists t, m = t ++ drop_spaces m /\ Forall (fun c => is_space c = true) t.
Proof.
  induction m as [|c m [t [E Ht]]].
  - exists []. split; [reflexivity | constructor].
  - simpl. destruct (is_space c) eqn:Ec.
    + exists (c :: t). split; [simpl; f_equal; exact E | constructor; assumption].
    + exists []. split; [reflexivity | constructor].
Qed.

Lemma sub_non_letters_spaces (t : list ascii) :
  Forall (fun c => is_space c = true) t ->
  Forall (fun c => is_space c = true) (sub_non_letters t).
Proof.
  intros H. unfold sub_non_letters. apply Forall_map.
  eapply Forall_impl; [|exact H]. intros c Hc. simpl.
  rewrite (space_not_letter c Hc). reflexivity.
Qed.

Lemma str_split_leading_spaces (t a : list ascii) :
  Forall (fun c => is_space c = true) t ->
  str_split [] (t ++ a) = str_split [] a.
Proof.
  induction 1 as [|c t Hc _ IH]; [reflexivity|].
  cbn [app str_split]. rewrite Hc. exact IH.
Qed.

Lemma str_split_strip (text : list ascii) :
  str_split [] (sub_non_letters (str_strip text))
  = str_split [] (sub_non_letters text).
Proof.
  unfold str_strip.
  destruct (drop_spaces_prefix text) as [t1 [E1 H1]].
  destruct (drop_spaces_prefix (rev (drop_spaces text))) as [t2 [E2 H2]].
  set (core := rev (drop_spaces (rev (drop_spaces text)))) in *.
  assert (E : text = t1 ++ core ++ rev t2).
  { rewrite E1 at 1. f_equal. unfold core.
    rewrite <- (rev_involutive (drop_spaces text)) at 1.
    rewrite E2 at 1. rewrite rev_app_distr. reflexivity. }
  rewrite E at 1. unfold sub_non_letters. rewrite !map_app.
  rewrite str_split_leading_spaces by (apply sub_non_letters_spaces, H1).
  rewrite str_split_trailing_spaces; [reflexivity|].
  apply sub_non_letters_spaces, Forall_rev, H2.
Qed.

Lemma preprocess_chars_eq (text : list ascii) :
  preprocess_chars text = str_split [] (sub_non_letters (str_lower text)).
Proof.
  unfold preprocess_chars. cbv zeta.
  rewrite (proj1 (str_split_space_runs _)). apply str_split_strip.
Qed.

(** ** Tokens *)

Lemma str_split_tokens (P : ascii -> Prop) (cur text : list ascii)
    (tok : list ascii) :
  Forall P cur ->
  Forall (fun c => is_space c = true \/ (is_space c = false /\ P c)) text ->
  In tok (str_split cur text) -> tok <> [] /\ Forall P tok.
Proof.
  intros Hcur Htext. revert cur Hcur.
  induction Htext as [|c text Hc _ IH]; intros cur Hcur Hin.
  - simpl in Hin. destruct cur as [|x cur]; [destruct Hin|].
    destruct Hin as [<-|[]]. split.
    + intros E. apply (f_equal (@length ascii)) in E.
      rewrite length_rev in E. discriminate E.
    + apply Forall_rev, Hcur.
  - cbn [str_split] in Hin. destruct Hc as [Hc|[Hc Pc]]; rewrite Hc in Hin.
    + destruct cur as [|x cur]; [apply (IH [] (Forall_nil _) Hin)|].
      destruct Hin as [<-|Hin]; [|apply (IH [] (Forall_nil _) Hin)].
      split.
      * intros E. apply (f_equal (@length ascii)) in E.
        rewrite length_rev in E. discriminate E.
      * apply Forall_rev, Hcur.
    + apply (IH (c :: cur)); [constructor; assumption | exact Hin].
Qed.

Lemma str_split_concat (cur text : list ascii) :
  concat (str_split cur text)
  = rev cur ++ filter (fun c => negb (is_space c)) text.
Proof.
  revert cur. induction text as [|c text IH]; intros cur.
  - simpl. destruct cur; simpl; rewrite ?app_nil_r; reflexivity.
  - cbn [str_split filter]. destruct (is_space c); cbn [negb].
    + destruct cur as [|x cur].
      * rewrite IH. reflexivity.
      * cbn [concat]. rewrite IH. reflexivity.
    + rewrite IH. simpl. rewrite <- app_assoc. reflexivity.
Qed.

Lemma sub_non_letters_chars (text : list ascii) :
  Forall (fun c => is_space c = true
                   \/ (is_space c = false /\ is_lower_letter c = true))
    (sub_non_letters text).
Proof.
  unfold sub_non_letters. apply Forall_map, Forall_forall. intros c _.
  destruct (is_lower_letter c) eqn:E.
  - right. split; [apply letter_not_space, E | exact E].
  - left. reflexivity.
Qed.

Lemma filter_sub_non_letters (text : list ascii) :
  filter (fun c => negb (is_space c)) (sub_non_letters text)
  = filter is_lower_letter text.
Proof.
  induction text as [|c text IH]; [reflexivity|]. simpl.
  destruct (is_lower_letter c) eqn:E.
  - rewrite (letter_not_space c E). simpl. rewrite IH. reflexivity.
  - simpl. exact IH.
Qed.

Lemma preprocess_chars_tokens (text tok : list ascii) :
  In tok (preprocess_chars text) ->
  tok <> [] /\ Forall (fun c => is_lower_letter c = true) tok.
Proof.
  rewrite preprocess_chars_eq.
  apply (str_split_tokens (fun c => is_lower_letter c = true));
    [constructor | apply sub_non_letters_chars].
Qed.

Lemma _preprocess_words (text tok : string) :
  In tok (_preprocess text) -> is_word tok.
Proof.
  unfold _preprocess. intros H. apply in_map_iff in H as [t [<- Ht]].
  apply preprocess_chars_tokens in Ht as [Hne Hall]. split.
  - intros E. apply Hne. destruct t; [reflexivity | discriminate E].
  - rewrite list_ascii_of_string_of_list_ascii. exact Hall.
Qed.

(** Every token that [_preprocess] returns is a word of the letters [a]
    to [z] with at least one letter; a text without a letter, the empty
    text among them, has no token. *)
Theorem tokens_are_lowercase_words (text : string) :
  (forall tok, In tok (_preprocess text) -> is_word tok)
  /\ (Forall (fun c => is_lower_letter (char_lower c) = false)
        (list_ascii_of_string text) ->
      _preprocess text = []).
Proof.
  split; [intros tok; apply _preprocess_words|].
  intros Hno. unfold _preprocess.
  destruct (preprocess_chars (list_ascii_of_string text)) as [|t ts] eqn:E;
    [reflexivity|].
  exfalso.
  assert (Ht : In t (preprocess_chars (list_ascii_of_string text)))
    by (rewrite E; left; reflexivity).
  pose proof (preprocess_chars_tokens _ _ Ht) as [Hne _].
  assert (Hc : concat (preprocess_chars (list_ascii_of_string text)) = []).
  { rewrite preprocess_chars_eq, str_split_concat, filter_sub_non_letters.
    simpl. unfold str_lower. clear -Hno.
    induction Hno as [|c l Hc _ IH]; [reflexivity|].
    simpl. rewrite Hc. exact IH. }
  rewrite E in Hc. simpl in Hc. apply app_eq_nil in Hc as [Hc _]. tauto.
Qed.

Lemma tokens_are_lowercase_words_witness :
  _preprocess "42 + 8 = ?"%string = [].
Proof.
  apply (proj2 (tokens_are_lowercase_words "42 + 8 = ?"%string)).
  repeat constructor.
Defined.

(** The tokens of a text, one after the other, are the letters of the
    lower-cased text in their order: no letter is lost, added or moved. *)
Theorem tokens_keep_the_letters (text : string) :
  concat (map list_ascii_of_string (_preprocess text))
  = filter is_lower_letter (str_lower (list_ascii_of_string text)).
Proof.
  unfold _preprocess. rewrite map_map.
  rewrite (map_ext _ (fun t => t))
    by (intros t; apply list_ascii_of_string_of_list_ascii).
  rewrite map_id, preprocess_chars_eq, str_split_concat.
  apply filter_sub_non_letters.
Qed.

(** ** Tokenising again *)

Lemma str_lower_idem (text : list ascii) :
  str_lower (str_lower text) = str_lower text.
Proof.
  unfold str_lower. rewrite map_map. apply map_ext, char_lower_idem.
Qed.

(** [_preprocess] does not see the case of the letters: a text and its
    lower-cased form have the same tokens. *)
Theorem tokens_ignore_case (text : string) :
  _preprocess (string_of_list_ascii (str_lower (list_ascii_of_string text)))
  = _preprocess text.
Proof.
  unfold _preprocess. rewrite list_ascii_of_string_of_list_ascii.
  rewrite !preprocess_chars_eq, str_lower_idem. reflexivity.
Qed.

Lemma str_split_run (t cur rest : list ascii) :
  Forall (fun c => is_space c = false) t ->
  str_split cur (t ++ rest) = str_split (rev t ++ cur) rest.
Proof.
  intros H. revert cur. induction H as [|c t Hc _ IH]; intros cur;
    [reflexivity|].
  cbn [app str_split]. rewrite Hc, IH. simpl. rewrite <- app_assoc.
  reflexivity.
Qed.

Lemma str_split_join (tokens : list (list ascii)) :
  Forall (fun t => t <> [] /\ Forall (fun c => is_space c = false) t) tokens ->
  str_split [] (join tokens) = tokens.
Proof.
  induction 1 as [|t tokens [Hne Ht] Hall IH]; [reflexivity|].
  destruct tokens as [|t' tokens].
  - simpl. rewrite <- (app_nil_r t) at 1. rewrite str_split_run by assumption.
    rewrite app_nil_r. simpl.
    destruct (rev t) eqn:E.
    + apply (f_equal (@rev ascii)) in E. rewrite rev_involutive in E.
      simpl in E. contradiction.
    + rewrite <- E, rev_involutive. reflexivity.
  - change (join (t :: t' :: tokens)) with (t ++ " "%char :: join (t' :: tokens)).
    rewrite str_split_run by assumption. rewrite app_nil_r.
    cbn [str_split].
    change (is_space " "%char) with true. cbv iota.
    destruct (rev t) eqn:E.
    + apply (f_equal (@rev ascii)) in E. rewrite rev_involutive in E.
      simpl in E. contradiction.
    + rewrite <- E, rev_involutive, IH. reflexivity.
Qed.

Lemma words_fixed (tokens : list (list ascii)) :
  Forall (fun t => t <> [] /\ Forall (fun c => is_lower_letter c = true) t)
    tokens ->
  sub_non_letters (str_lower (join tokens)) = join tokens.
Proof.
  intros H. unfold sub_non_letters, str_lower. rewrite map_map.
  rewrite <- (map_id (join tokens)) at 2. apply map_ext_in.
  intros c Hc.
  assert (Hcase : c = " "%char \/ is_lower_letter c = true).
  { clear -H Hc. induction H as [|t tokens [_ Ht] Hall IH]; [destruct Hc|].
    destruct tokens as [|t' tokens].
    - simpl in Hc. right. rewrite Forall_forall in Ht. apply Ht, Hc.
    - change (join (t :: t' :: tokens))
        with (t ++ " "%char :: join (t' :: tokens)) in Hc.
      apply in_app_or in Hc as [Hc|[<-|Hc]].
      + right. rewrite Forall_forall in Ht. apply Ht, Hc.
      + left. reflexivity.
      + apply IH, Hc. }
  destruct Hcase as [->|Hl]; [reflexivity|].
  rewrite (char_lower_letter c Hl), Hl. reflexivity.
Qed.

(** Tokenising is a round trip on its own output: the tokens of a text,
    joined by single blanks and tokenised again, are the same tokens. *)
Theorem tokens_of_joined_tokens (text : string) :
  let tokens := map list_ascii_of_string (_preprocess text) in
  _preprocess (string_of_list_ascii (join tokens)) = _preprocess text.
Proof.
  unfold _preprocess. cbv zeta. rewrite map_map.
  rewrite (map_ext _ (fun t => t))
    by (intros t; apply list_ascii_of_string_of_list_ascii).
  rewrite map_id, list_ascii_of_string_of_list_ascii. f_equal.
  set (tokens := preprocess_chars (list_ascii_of_string text)).
  assert (Hall : Forall (fun t => t <> []
                   /\ Forall (fun c => is_lower_letter c = true) t) tokens).
  { apply Forall_forall. intros t Ht. apply (preprocess_chars_tokens _ _ Ht). }
  rewrite preprocess_chars_eq, words_fixed by exact Hall.
  apply str_split_join. eapply Forall_impl; [|exact Hall].
  intros t [Hne Ht]. split; [exact Hne|].
  eapply Forall_impl; [|exact Ht]. intros c. apply letter_not_space.
Qed.

(** * How the parts compose *)

(** ** From texts to the vocabulary *)

Lemma preprocess_map (self : TextPreProcessor) (corpus : list string) :
  snd (preprocess self corpus) = map _preprocess corpus
  /\ processed_corpus (fst (preprocess self corpus)) = map _preprocess corpus.
Proof.
  unfold preprocess. cbv zeta. simpl.
  assert (G : forall acc,
             processed_corpus
               (fold_left (fun s doc =>
                             mk_TextPreProcessor
                               (processed_corpus s ++ [_preprocess doc]))
                  corpus (mk_TextPreProcessor acc))
             = acc ++ map _preprocess corpus).
  { induction corpus as [|doc corpus IH]; intros acc; simpl.
    - rewrite app_nil_r. reflexivity.
    - rewrite IH, <- app_assoc. reflexivity. }
  rewrite (G []). split; reflexivity.
Qed.

(** [preprocess] returns one token list per text, in the order of the
    texts, whatever an earlier call has stored; and when its result is
    handed to [process], which then raises nothing, every word of the
    vocabulary is a word of the letters [a] to [z] and the number of kept
    documents is at most the number of texts. *)
Theorem vocabulary_of_preprocessed_texts (tp : TextPreProcessor)
    (cp : CorpusProcessor) (texts : list string) :
  snd (preprocess tp texts) = map _preprocess texts
  /\ exists st,
       process cp (snd (preprocess tp texts)) = Ok st
       /\ (forall w, In w (words_in_vocab st) -> is_word w)
       /\ D st <= length texts.
Proof.
  destruct (preprocess_map tp texts) as [E _]. split; [exact E|].
  rewrite E. exists (processed cp (map _preprocess texts)).
  split; [apply process_ok|]. split.
  - intros w Hw. apply processed_vocab_In in Hw as [[doc [Hdoc Hin]] _].
    apply in_map_iff in Hdoc as [text [<- _]].
    eapply _preprocess_words. exact Hin.
  - simpl. rewrite length_kept_documents.
    etransitivity; [apply D_filtered_le|]. rewrite length_map. apply le_n.
Qed.

(** ** From the document-term matrix to the marginals *)

Lemma sum_nat_indicator_filter {A : Type} (p : A -> bool) (l : list A) :
  sum_nat (map (fun a => if p a then 1 else 0) l) = length (filter p l).
Proof.
  induction l as [|a l IH]; simpl; [reflexivity|].
  destruct (p a); simpl; rewrite IH; reflexivity.
Qed.

Lemma processed_nw (self : CorpusProcessor) (c : list (list string))
    (col : nat) (w : string) :
  nth_error (words_in_vocab (processed self c)) col = Some w ->
  nw (vectorised_documents (processed self c)) col
  = length (filter (string_mem w) (documents (processed self c))).
Proof.
  intros Hc. unfold nw.
  replace (fst (csr_shape (vectorised_documents (processed self c))))
    with (length (documents (processed self c))) by reflexivity.
  rewrite (map_seq_nth_error _
             (fun doc => if string_mem w doc then 1 else 0)).
  - apply sum_nat_indicator_filter.
  - intros r doc Hr. unfold binarized.
    rewrite (processed_entry self c r col doc w Hr Hc).
    destruct (string_mem w doc) eqn:E.
    + apply string_mem_In in E.
      apply (count_occ_In string_dec) in E.
      destruct (Nat.ltb_spec 0 (count_occ string_dec doc w)); [reflexivity | lia].
    + apply string_mem_false in E.
      rewrite (proj1 (count_occ_not_In string_dec doc w) E). reflexivity.
Qed.

(** When [process] has kept no document, the constructor of [Coherence]
    raises [ZeroDivisionError] on its matrix.  Otherwise it succeeds, and
    the count it divides for [pw] is, for the word of a column, the number
    of kept documents that contain the word, which is at least one. *)
Theorem coherence_of_a_processed_corpus (self : CorpusProcessor)
    (c : list (list string)) :
  exists st,
    process self c = Ok st
    /\ (get_documents st = [] ->
        Coherence_init (get_vectorised_documents st)
        = Raise ZeroDivisionError)
    /\ (get_documents st <> [] ->
        exists coherence,
          Coherence_init (get_vectorised_documents st) = Ok coherence
          /\ forall col w, In (col, w) (get_vocab st) ->
               nw (get_vectorised_documents st) col
               = length (filter (string_mem w) (get_documents st))
               /\ 1 <= nw (get_vectorised_documents st) col).
Proof.
  exists (processed self c). split; [apply process_ok|].
  unfold get_documents, get_vectorised_documents, get_vocab.
  unfold Coherence_init, get_marginals.
  replace (fst (csr_shape (vectorised_documents (processed self c))))
    with (length (documents (processed self c))) by reflexivity.
  split.
  - intros E. rewrite E. reflexivity.
  - intros Hne.
    destruct (documents (processed self c)) as [|doc docs] eqn:Edocs;
      [congruence|].
    cbn [length Nat.eqb]. eexists. split; [reflexivity|].
    intros col w Hcw. apply In_enumerate in Hcw.
    rewrite (processed_nw self c col w Hcw), Edocs. split; [reflexivity|].
    assert (Hw : In w (words_in_vocab (processed self c)))
      by (eapply nth_error_In; exact Hcw).
    simpl in Hw. pose proof Hw as Hocc.
    apply kept_keys_In in Hocc as [[d0 [Hd0 Hin]] _].
    assert (Hk : In (filter (fun word => Dict.mem word (kept self c)) d0)
                   (documents (processed self c))).
    { simpl. unfold kept_documents. apply filter_In. split.
      - apply in_map, Hd0.
      - destruct (filter _ d0) eqn:Ef; [|reflexivity].
        assert (Hx : In w (filter (fun word => Dict.mem word (kept self c)) d0))
          by (apply filter_In; split;
              [exact Hin | apply DictFacts.mem_keys, Hw]).
        rewrite Ef in Hx. destruct Hx. }
    rewrite Edocs in Hk.
    assert (Hf : In (filter (fun word => Dict.mem word (kept self c)) d0)
                   (filter (string_mem w) (doc :: docs))).
    { apply filter_In. split; [exact Hk|]. apply string_mem_In.
      apply filter_In. split; [exact Hin | apply DictFacts.mem_keys, Hw]. }
    destruct (filter (string_mem w) (doc :: docs)); [destruct Hf | simpl; lia].
Qed.

Lemma coherence_of_a_processed_corpus_witness :
  Coherence_init
    (get_vectorised_documents (processed (init None None None []) corpus_a_b_a))
  = Raise ZeroDivisionError.
Proof.
  destruct (coherence_of_a_processed_corpus (init None None None [])
              corpus_a_b_a) as [st [Hst [H _]]].
  rewrite process_ok in Hst. injection Hst as <-.
  apply H. reflexivity.
Defined.

Lemma vocabulary_of_preprocessed_texts_witness :
  is_word "cat"%string.
Proof.
  destruct (vocabulary_of_preprocessed_texts (mk_TextPreProcessor [])
              processor_1_0 ["The cat"; "A dog"]%string)
    as [_ [st [Hst [H _]]]].
  rewrite process_ok in Hst. injection Hst as <-.
  apply (H "cat"%string). left. reflexivity.
Defined.
